(** * trackman: the process runner (Spinner) and the workflow scheduler

    A shallow embedding of [utils/spinner.go] and of the dependency-aware
    [utils/workflow.go]: Go strings are byte strings ([string]), the
    [error] interface is an inductive type that keeps the difference
    between the nil interface and a nil pointer stored in an interface,
    the notification manager is the log of the events pushed to it, and
    the goroutines of [Workflow.Run] are an interleaving transition
    system over the shared workflow state. *)

From Stdlib Require Import ZArith Lia Ascii String.
From stdpp Require Import base option list sets strings.

Local Open Scope string_scope.
Local Open Scope list_scope.

(* ================================================================== *)
(** * Go values shared by both components *)
(* ================================================================== *)

Module Go.

(** [syscall.WaitStatus], a uint32: the raw wait status of a process. *)
Definition WaitStatus := Z.

(** [WaitStatus.ExitStatus()] on Linux: bits 8..15 of the raw status. *)
Definition ExitStatus (w : WaitStatus) : Z := Z.land (Z.shiftr w 8) 255.

(** The concrete (non-nil) error values the runner can meet.
    [ExitError sys] is a [*exec.ExitError] whose [Sys()] is a
    [syscall.WaitStatus] ([Some w]) or a value of another dynamic type
    ([None]). *)
Inductive errval : Type :=
| ExitError (sys : option WaitStatus)
| DeadlineExceeded
| Canceled
| errorString (msg : string).

(** A value of the interface type [error].  [nilExitError] is the nil
    pointer of type [*exec.ExitError] stored in the interface: it is not
    equal to [nil], and it is no error value either. *)
Inductive error : Type :=
| nil
| nilExitError
| Err (e : errval).

#[global] Instance errval_eq_dec : EqDecision errval.
Proof. solve_decision. Defined.

#[global] Instance error_eq_dec : EqDecision error.
Proof. solve_decision. Defined.

(** [err != nil] *)
Definition not_nil (e : error) : bool :=
  match e with nil => false | _ => true end.

(** An [error] returned by a library call: nil or a concrete value. *)
Definition of_result (r : option errval) : error :=
  match r with None => nil | Some e => Err e end.

(** ** [strings.Split] for a separator of one byte

    [genSplit] of the Go library cuts the string at the first
    [Count s sep] occurrences of the separator and stores the rest as the
    last element. *)

(** [s[:m]] and [s[m+1:]] for [m := strings.IndexByte(s, sep)], when
    [m >= 0]. *)
Fixpoint cut (sep : ascii) (s : string) : option (string * string) :=
  match s with
  | EmptyString => None
  | String c r =>
      if decide (c = sep) then Some (EmptyString, r)
      else match cut sep r with
           | Some (h, t) => Some (String c h, t)
           | None => None
           end
  end.

(** [strings.Count(s, sep)] *)
Fixpoint Count (sep : ascii) (s : string) : nat :=
  match s with
  | EmptyString => 0
  | String c r => (if decide (c = sep) then 1 else 0) + Count sep r
  end.

(** The loop of [genSplit]: [n] is the number of cuts still allowed. *)
Fixpoint genSplit (sep : ascii) (n : nat) (s : string) : list string :=
  match n with
  | 0 => [s]
  | S k =>
      match cut sep s with
      | None => [s]
      | Some (h, t) => h :: genSplit sep k t
      end
  end.

Definition Split (s : string) (sep : ascii) : list string :=
  genSplit sep (Count sep s) s.

(** [strings.Join] for a separator of one byte. *)
Fixpoint Join (l : list string) (sep : ascii) : string :=
  match l with
  | [] => EmptyString
  | [x] => x
  | x :: r => String.append x (String sep (Join r sep))
  end.

(** The byte [c] occurs in [s]. *)
Fixpoint has_byte (c : ascii) (s : string) : bool :=
  match s with
  | EmptyString => false
  | String d r => if decide (d = c) then true else has_byte c r
  end.

Definition space : ascii := " "%char.
Definition tab : ascii := "009"%char.

End Go.

(* ================================================================== *)
(** * spinner.go *)
(* ================================================================== *)

Module Spinner.
Import Go.

(** Modelled from the spec: the sink exposes two writable streams,
    standard output and standard error; here stream handles. *)
Record SpinnerSink := { StdErr : nat; StdOut : nat }.

(** Modelled from the spec: the notifier accepts events and is an
    external collaborator.  Here it is a handle; what it received is the
    event log threaded through [Run]. *)
Record NotificationManager := { manager : nat }.

(** [Options]: both fields are pointers, [None] is nil.  The field
    [NotificationManager] has the name of its type and gets an
    underscore. *)
Record Options := {
  Sink : option SpinnerSink;
  NotificationManager_ : option NotificationManager
}.

Record Spinner := {
  uuid : string;
  options : Options;
  cmd : string;
  args : list string
}.

(** What a call can do: return a value, return an error, or panic. *)
Inductive outcome (A : Type) : Type :=
| Ok (a : A)
| Fail (msg : string)
| Panic (msg : string).
Arguments Ok {A} a.
Arguments Fail {A} msg.
Arguments Panic {A} msg.

(** [NewSpinner].  [id] is the string of the fresh [uuid.New()]. *)
Definition NewSpinner (id : string) (command : string) (o : Options)
  : outcome Spinner :=
  match Sink o with
  | None => Panic "no sink"
  | Some _ =>
      match NotificationManager_ o with
      | None => Panic "no notification manager"
      | Some _ =>
          let parts := Split command space in
          if decide (length parts < 1)%nat then Fail "bad command"
          else Ok {| uuid := id; options := o;
                     cmd := hd EmptyString parts; args := tl parts |}
      end
  end.

(** ** Events *)

(** Modelled from the spec: the event kinds, which the source uses as
    the constants [EventRunRequested] ... [EventRunSuccess]. *)
Inductive EventKind : Type :=
| EventRunRequested
| EventRunStarted
| EventRunError
| EventRunFail
| EventRunWaitError
| EventRunTimeout
| EventRunSuccess.

#[global] Instance EventKind_eq_dec : EqDecision EventKind.
Proof. solve_decision. Defined.

(** The payload argument of [NewEvent]: nil, a wait status, or the
    spinner itself (given by its uuid). *)
Inductive Payload : Type :=
| PNil
| PStatus (w : WaitStatus)
| PSpinner (id : string).

(** Modelled from the spec: an event has the identifier of its source,
    a kind and an optional payload; [NewEvent] builds it. *)
Record Event := { Source : string; Kind : EventKind; Data : Payload }.

Definition NewEvent (s : Spinner) (k : EventKind) (p : Payload) : Event :=
  {| Source := uuid s; Kind := k; Data := p |}.

(** ** The event log as a state monad *)

Definition M (A : Type) : Type := list Event -> A * list Event.

Definition ret {A} (a : A) : M A := fun log => (a, log).

Definition bind {A B} (m : M A) (k : A -> M B) : M B :=
  fun log => let (a, log') := m log in k a log'.

Notation "m >>- k" := (bind m (fun _ => k))
  (at level 62, right associativity).

(** [s.push]: [NotificationManager.Push] receives the event. *)
Definition push (e : Event) : M unit := fun log => (tt, log ++ [e]).

(** ** The external process

    What the operating system answers during one [Run]: the result of
    [cmd.Start()], the result of [cmd.Wait()], and the value of
    [ctx.Err()] once the wait is over. *)
Record Process := {
  Start : option errval;
  Wait : option errval;
  CtxErr : option errval
}.

(** Lines 84-92: the deadline check and the success report. *)
Definition finish (s : Spinner) (p : Process) : M error :=
  if decide (CtxErr p = Some DeadlineExceeded) then
    push (NewEvent s EventRunTimeout PNil) >>-
    ret (of_result (CtxErr p))
  else
    push (NewEvent s EventRunSuccess PNil) >>-
    ret nil.

(** [Spinner.Run] *)
Definition Run (s : Spinner) (p : Process) : M error :=
  push (NewEvent s EventRunRequested PNil) >>-
  match Start p with
  | Some err =>
      push (NewEvent s EventRunError PNil) >>-
      ret (Err err)
  | None =>
      push (NewEvent s EventRunStarted PNil) >>-
      match Wait p with
      | Some (ExitError sys) =>
          (* the type assertion to *exec.ExitError holds *)
          match sys with
          | Some status => push (NewEvent s EventRunFail (PStatus status))
          | None => ret tt
          end >>-
          finish s p
      | Some _ =>
          (* wait error: exitErr is the nil *exec.ExitError *)
          push (NewEvent s EventRunWaitError (PSpinner (uuid s))) >>-
          ret nilExitError
      | None => finish s p
      end
  end.

(** The events of one run, from an empty log, and the value returned. *)
Definition events (s : Spinner) (p : Process) : list Event :=
  snd (Run s p []).

Definition kinds (s : Spinner) (p : Process) : list EventKind :=
  Kind <$> events s p.

Definition returned (s : Spinner) (p : Process) : error :=
  fst (Run s p []).

Definition emits (k : EventKind) (s : Spinner) (p : Process) : Prop :=
  k ∈ kinds s p.

(** The kinds that close a run that was started. *)
Definition terminal (k : EventKind) : bool :=
  match k with
  | EventRunFail | EventRunWaitError | EventRunSuccess | EventRunTimeout =>
      true
  | _ => false
  end.

(** The wait reports how the process exited: nil or an exit error. *)
Definition wait_reports_exit (p : Process) : Prop :=
  Wait p = None \/ exists sys, Wait p = Some (ExitError sys).

End Spinner.

(* ================================================================== *)
(** * workflow.go (the dependency-aware workflow) *)
(* ================================================================== *)

Module Workflow.
Import Go.

Inductive Status : Type := Idle | Pending | Running | Success | Failed.

#[global] Instance Status_eq_dec : EqDecision Status.
Proof. solve_decision. Defined.

(** Modelled from the spec: the type [Step] and its methods
    [shouldRun], [isDone], [MarkAsPending] and [Run] are not part of the
    source at hand.  A step has a name, a command, the names it depends
    on, the dependencies resolved at load time (pointers to sibling
    steps, here their indices in [Steps]) and a status that starts as
    [Idle]. *)
Record Step := {
  Name : string;
  Command : string;
  DependsOn : list string;
  dependsOn : list nat;
  status : Status
}.

Definition with_dependsOn (ds : list nat) (s : Step) : Step :=
  {| Name := Name s; Command := Command s; DependsOn := DependsOn s;
     dependsOn := ds; status := status s |}.

Definition with_status (st : Status) (s : Step) : Step :=
  {| Name := Name s; Command := Command s; DependsOn := DependsOn s;
     dependsOn := dependsOn s; status := st |}.

(** Modelled from the spec: [isDone()] is true for Success and Failed. *)
Definition isDone (s : Step) : bool :=
  match status s with Success | Failed => true | _ => false end.

(** Modelled from the spec: [shouldRun()] is true only for an Idle step
    all of whose dependencies are Success. *)
Definition shouldRun (steps : list Step) (s : Step) : bool :=
  bool_decide (status s = Idle) &&
  forallb (fun i => match steps !! i with
                    | Some d => bool_decide (status d = Success)
                    | None => false
                    end) (dependsOn s).

(** Modelled from the spec: [MarkAsPending()] is the transition
    Idle -> Pending. *)
Definition MarkAsPending (s : Step) : Step := with_status Pending s.

(** Modelled from the spec: [Step.Run] takes the step from Pending to
    Running immediately before it invokes the process runner. *)
Definition Run_begins (toRun : nat) (l : list Step) : list Step :=
  alter (with_status Running) toRun l.

(** Modelled from the spec: when the process runner is back, [Step.Run]
    takes the step from Running to Success ([ok]: status 0 and no
    timeout) or to Failed. *)
Definition Run_ends (ok : bool) (toRun : nat) (l : list Step) : list Step :=
  alter (with_status (if ok then Success else Failed)) toRun l.

(** [semaphore.Weighted]: capacity and the units currently held. *)
Record Weighted := { size : Z; cur : Z }.

Definition NewWeighted (n : Z) : Weighted := {| size := n; cur := 0 |}.

Record WorkflowOptions := {
  Notifier : option nat;
  Concurrency : Z;
  Timeout : Z
}.

(** What the YAML document carries. *)
Record StepDoc := {
  doc_name : string;
  doc_command : string;
  doc_depends_on : list string
}.

Record Document := {
  doc_version : string;
  doc_metadata : list (string * string);
  doc_steps : list StepDoc
}.

Record Workflow := {
  Version : string;
  Metadata : list (string * string);
  Steps : list Step;
  options : option WorkflowOptions;
  gatekeeper : Weighted;
  stopFlag : bool
}.

(** The workflow [yaml.Unmarshal] builds from a document: the fields
    the document does not carry keep their zero value. *)
Definition decode_step (d : StepDoc) : Step :=
  {| Name := doc_name d; Command := doc_command d;
     DependsOn := doc_depends_on d; dependsOn := []; status := Idle |}.

Definition decode (d : Document) : Workflow :=
  {| Version := doc_version d; Metadata := doc_metadata d;
     Steps := decode_step <$> doc_steps d; options := None;
     gatekeeper := NewWeighted 0; stopFlag := false |}.

(** [findStepByName]: the first step with that name, as its index. *)
Fixpoint findStepByName (steps : list Step) (name : string) : option nat :=
  match steps with
  | [] => None
  | s :: r =>
      if decide (Name s = name) then Some 0%nat
      else S <$> findStepByName r name
  end.

(** [fmt.Errorf("invalid step name in runs_after for step %s (%s)", ...)] *)
Definition invalid_step_name (step prior : string) : string :=
  ("invalid step name in runs_after for step " ++ step ++
   " (" ++ prior ++ ")")%string.

(** The inner loop of the validation: resolve the names of one step,
    appending each to its [dependsOn]. *)
Fixpoint link (all : list Step) (step : string) (names : list string)
  (acc : list nat) : errval + list nat :=
  match names with
  | [] => inr acc
  | priorStepName :: r =>
      match findStepByName all priorStepName with
      | None => inl (errorString (invalid_step_name step priorStepName))
      | Some priorStep => link all step r (acc ++ [priorStep])
      end
  end.

(** The outer loop, over the steps in order. *)
Fixpoint link_all (all todo : list Step) : errval + list Step :=
  match todo with
  | [] => inr []
  | s :: r =>
      match link all (Name s) (DependsOn s) (dependsOn s) with
      | inl e => inl e
      | inr ds =>
          match link_all all r with
          | inl e => inl e
          | inr r' => inr (with_dependsOn ds s :: r')
          end
      end
  end.

Inductive load_result : Type :=
| Loaded (w : Workflow)
| LoadError (e : errval)
| Fatal (msg : string)
| LoadPanic (msg : string).

(** [LoadWorkflowFromBytes].  [parsed] is what [yaml.Unmarshal] made of
    the bytes: an error or the decoded document.  [logger.Fatal] ends
    the process. *)
Definition LoadWorkflowFromBytes (o : option WorkflowOptions)
  (parsed : errval + Document) : load_result :=
  match parsed with
  | inl err => LoadError err
  | inr d =>
      match o with
      | None => LoadPanic "no options"
      | Some opts =>
          match Notifier opts with
          | None => LoadPanic "no notifier"
          | Some _ =>
              let workflow := decode d in
              if decide (Version workflow <> "1") then
                Fatal "invalid workflow version"
              else
                match link_all (Steps workflow) (Steps workflow) with
                | inl e => LoadError e
                | inr steps =>
                    Loaded {| Version := Version workflow;
                              Metadata := Metadata workflow;
                              Steps := steps;
                              options := Some opts;
                              gatekeeper := NewWeighted (Concurrency opts);
                              stopFlag := false |}
                end
          end
      end
  end.

(** [LoadWorkflowFromReader].  [reader] is what [ioutil.ReadAll] got
    from the reader, an error or the bytes, and [unmarshal] is
    [yaml.Unmarshal] into a workflow. *)
Definition LoadWorkflowFromReader {B : Type}
  (unmarshal : B -> errval + Document) (o : option WorkflowOptions)
  (reader : errval + B) : load_result :=
  match reader with
  | inl err => LoadError err
  | inr buff => LoadWorkflowFromBytes o (unmarshal buff)
  end.

(** ** [Workflow.Run] as a transition system

    The coordinating loop and the goroutines it starts share the steps,
    the stop flag, the semaphore and the wait group.  Every operation
    under the workflow mutex, on the semaphore or on the wait group is
    one atomic transition. *)

(** Where the coordinating loop stands. *)
Inductive MainPc : Type :=
| AtShouldStop                 (* line 196 *)
| AtAllDone                    (* line 199 *)
| AtNextToRun                  (* line 203 *)
| AtAcquire (step : nat)       (* line 208 *)
| AtGo (step : nat)            (* line 213 *)
| AtJoin                       (* line 230 *)
| Returned (err : error).

(** Where a goroutine stands. *)
Inductive TaskPc : Type :=
| TAdd                         (* line 214: joiner.Add(1) *)
| TRun                         (* line 218: toRun.Run is called *)
| TProcess                     (* inside toRun.Run: the process runs *)
| TCheck (err : error)         (* line 219: err != nil *)
| TRelease                     (* line 225 *)
| TDone                        (* the deferred joiner.Done() *)
| TExit.

#[global] Instance TaskPc_eq_dec : EqDecision TaskPc.
Proof. solve_decision. Defined.

Record Task := { toRun : nat; at_ : TaskPc }.

Record State := {
  steps : list Step;
  stop : bool;
  gate : Weighted;
  joiner : Z;
  ctx : option errval;
  pc : MainPc;
  tasks : list Task
}.

Definition set_steps (l : list Step) (s : State) : State :=
  {| steps := l; stop := stop s; gate := gate s; joiner := joiner s;
     ctx := ctx s; pc := pc s; tasks := tasks s |}.
Definition set_stop (b : bool) (s : State) : State :=
  {| steps := steps s; stop := b; gate := gate s; joiner := joiner s;
     ctx := ctx s; pc := pc s; tasks := tasks s |}.
Definition set_gate (g : Weighted) (s : State) : State :=
  {| steps := steps s; stop := stop s; gate := g; joiner := joiner s;
     ctx := ctx s; pc := pc s; tasks := tasks s |}.
Definition set_joiner (n : Z) (s : State) : State :=
  {| steps := steps s; stop := stop s; gate := gate s; joiner := n;
     ctx := ctx s; pc := pc s; tasks := tasks s |}.
Definition set_ctx (c : option errval) (s : State) : State :=
  {| steps := steps s; stop := stop s; gate := gate s; joiner := joiner s;
     ctx := c; pc := pc s; tasks := tasks s |}.
Definition set_pc (p : MainPc) (s : State) : State :=
  {| steps := steps s; stop := stop s; gate := gate s; joiner := joiner s;
     ctx := ctx s; pc := p; tasks := tasks s |}.
Definition set_tasks (l : list Task) (s : State) : State :=
  {| steps := steps s; stop := stop s; gate := gate s; joiner := joiner s;
     ctx := ctx s; pc := pc s; tasks := l |}.

(** The state in which [Run] is entered. *)
Definition enter (w : Workflow) : State :=
  {| steps := Steps w; stop := stopFlag w; gate := gatekeeper w;
     joiner := 0; ctx := None; pc := AtShouldStop; tasks := [] |}.

(** [allDone] *)
Definition allDone (l : list Step) : bool := forallb isDone l.

(** The index of the first element satisfying [p]. *)
Fixpoint first_index {A} (p : A -> bool) (l : list A) : option nat :=
  match l with
  | [] => None
  | x :: r => if p x then Some 0%nat else S <$> first_index p r
  end.

(** [nextToRun]: scan and claim under the mutex. *)
Definition nextToRun (l : list Step) : list Step * option nat :=
  match first_index (shouldRun l) l with
  | Some idx => (alter MarkAsPending idx l, Some idx)
  | None => (l, None)
  end.

(** [Acquire(ctx, 1)] when it can take a unit; [Release(1)]. *)
Definition acquire (g : Weighted) : option Weighted :=
  if decide (1 <= size g - cur g)%Z
  then Some {| size := size g; cur := cur g + 1 |}
  else None.

Definition release (g : Weighted) : Weighted :=
  {| size := size g; cur := cur g - 1 |}.

(** One operation of the coordinating loop; [None] when it is blocked
    or has returned. *)
Definition main_step (s : State) : option State :=
  match pc s with
  | AtShouldStop =>
      if stop s then Some (set_pc (Returned nil) s)
      else Some (set_pc AtAllDone s)
  | AtAllDone =>
      if allDone (steps s) then Some (set_pc AtJoin s)
      else Some (set_pc AtNextToRun s)
  | AtNextToRun =>
      match nextToRun (steps s) with
      | (l, Some idx) => Some (set_pc (AtAcquire idx) (set_steps l s))
      | (_, None) => Some (set_pc AtShouldStop s)
      end
  | AtAcquire idx =>
      match acquire (gate s) with
      | Some g => Some (set_pc (AtGo idx) (set_gate g s))
      | None => None
      end
  | AtGo idx =>
      Some (set_pc AtShouldStop
              (set_tasks (tasks s ++ [{| toRun := idx; at_ := TAdd |}]) s))
  | AtJoin =>
      if decide (joiner s = 0)%Z then Some (set_pc (Returned nil) s)
      else None
  | Returned _ => None
  end.

(** [Acquire] fails with the error of the context once the context is
    done, and takes nothing. *)
Definition acquire_fails (s : State) : option State :=
  match pc s, ctx s with
  | AtAcquire _, Some e => Some (set_pc (Returned (Err e)) s)
  | _, _ => None
  end.

Definition set_task (j : nat) (t : Task) (s : State) : State :=
  set_tasks (<[j := t]> (tasks s)) s.

Definition move (t : Task) (p : TaskPc) : Task :=
  {| toRun := toRun t; at_ := p |}.

(** One operation of goroutine [j], other than the end of its process.
    The assignment [toRun.options = options] changes nothing shared. *)
Definition task_step (j : nat) (s : State) : option State :=
  match tasks s !! j with
  | None => None
  | Some t =>
      match at_ t with
      | TAdd =>
          Some (set_task j (move t TRun) (set_joiner (joiner s + 1) s))
      | TRun =>
          Some (set_task j (move t TProcess)
                  (set_steps (Run_begins (toRun t) (steps s)) s))
      | TProcess => None
      | TCheck err =>
          if not_nil err
          then Some (set_task j (move t TRelease) (set_stop true s))
          else Some (set_task j (move t TRelease) s)
      | TRelease =>
          Some (set_task j (move t TDone) (set_gate (release (gate s)) s))
      | TDone =>
          Some (set_task j (move t TExit) (set_joiner (joiner s - 1) s))
      | TExit => None
      end
  end.

(** The process of goroutine [j] ends: [toRun.Run] sets the final
    status and returns [err]. *)
Definition task_exit (j : nat) (ok : bool) (err : error) (s : State)
  : option State :=
  match tasks s !! j with
  | None => None
  | Some t =>
      match at_ t with
      | TProcess =>
          Some (set_task j (move t (TCheck err))
                  (set_steps (Run_ends ok (toRun t) (steps s)) s))
      | _ => None
      end
  end.

(** The caller's context is done, with error [e]; it stays so. *)
Definition cancel (e : errval) (s : State) : option State :=
  match ctx s with
  | None => Some (set_ctx (Some e) s)
  | Some _ => None
  end.

(** What the scheduler of the Go runtime and the environment choose. *)
Inductive Label : Type :=
| run_main
| run_acquire_fails
| run_task (j : nat)
| run_exit (j : nat) (ok : bool) (err : error)
| run_cancel (e : errval).

Definition step (l : Label) (s : State) : option State :=
  match l with
  | run_main => main_step s
  | run_acquire_fails => acquire_fails s
  | run_task j => task_step j s
  | run_exit j ok err => task_exit j ok err s
  | run_cancel e => cancel e s
  end.

(** An execution: the labels in order. *)
Fixpoint exec (ls : list Label) (s : State) : option State :=
  match ls with
  | [] => Some s
  | l :: r => match step l s with Some s' => exec r s' | None => None end
  end.

(** The steps whose status is Running. *)
Definition running (s : State) : nat :=
  length (filter (fun st => status st = Running) (steps s)).

(** ** Predicates on documents, states and executions *)

(** [sub] occurs in [s]. *)
Definition occurs_in (sub s : string) : Prop :=
  exists a b, s = String.append a (String.append sub b).

(** Some step of the document depends on a name no step has. *)
Definition dangling (d : Document) : Prop :=
  exists s dep,
    s ∈ doc_steps d /\ dep ∈ doc_depends_on s /\
    forall t, t ∈ doc_steps d -> doc_name t <> dep.

(** A goroutine holds its unit of the semaphore until it releases it. *)
Definition holding (t : Task) : bool :=
  match at_ t with
  | TAdd | TRun | TProcess | TCheck _ | TRelease => true
  | TDone | TExit => false
  end.

Definition in_process (t : Task) : bool :=
  match at_ t with TProcess => true | _ => false end.

(** The units taken: one for each goroutine that holds one, and one for
    the loop between [Acquire] and the [go] statement. *)
Definition held (s : State) : Z :=
  Z.of_nat (length (filter holding (tasks s))) +
  match pc s with AtGo _ => 1 | _ => 0 end.

(** The invariant of [Run] for a semaphore of capacity [N]. *)
Definition bounded (N : Z) (s : State) : Prop :=
  size (gate s) = N /\
  cur (gate s) = held s /\
  (cur (gate s) <= N)%Z /\
  forall i st, steps s !! i = Some st -> status st = Running ->
    exists t, t ∈ tasks s /\ toRun t = i /\ at_ t = TProcess.

(** The workflow [LoadWorkflowFromBytes] builds from a document. *)
Definition loaded (opts : WorkflowOptions) (d : Document) : Workflow :=
  match LoadWorkflowFromBytes (Some opts) (inr d) with
  | Loaded w => w
  | _ => decode d
  end.

(** What [Run] returned, if it has. *)
Definition result (s : State) : option error :=
  match pc s with Returned r => Some r | _ => None end.

(** [Run] returns only nil or the error of a failed [Acquire]. *)
Definition returns_admission_error (ls : list Label) (s : State) : Prop :=
  forall r, pc s = Returned r ->
    r = nil \/
    exists e, r = Err e /\ ctx s = Some e /\ run_acquire_fails ∈ ls.

(** A goroutine counted by the wait group: after [Add], before [Done]. *)
Definition registered (t : Task) : bool :=
  match at_ t with
  | TRun | TProcess | TCheck _ | TRelease | TDone => true
  | TAdd | TExit => false
  end.

(** The status a step has while its goroutine stands at [p]. *)
Definition phase (p : TaskPc) (x : Step) : Prop :=
  match p with
  | TAdd | TRun => status x = Pending
  | TProcess => status x = Running
  | TCheck _ | TRelease | TDone | TExit => isDone x = true
  end.

(** Every goroutine has a step of its own, in the status of its phase. *)
Definition linked (st : list Step) (ts : list Task) : Prop :=
  (forall j t, ts !! j = Some t ->
     exists x, st !! toRun t = Some x /\ phase (at_ t) x) /\
  (forall j1 j2 t1 t2, ts !! j1 = Some t1 -> ts !! j2 = Some t2 ->
     toRun t1 = toRun t2 -> j1 = j2).

(** What the loop knows where it stands. *)
Definition main_ok (p : MainPc) (st : list Step) (ts : list Task) : Prop :=
  match p with
  | AtAcquire i | AtGo i =>
      (exists x, st !! i = Some x /\ status x = Pending) /\
      forall j t, ts !! j = Some t -> toRun t <> i
  | AtJoin => allDone st = true
  | _ => True
  end.

Definition joined (s : State) : Prop :=
  joiner s = Z.of_nat (length (filter registered (tasks s))) /\
  linked (steps s) (tasks s) /\
  main_ok (pc s) (steps s) (tasks s).

(** What the validation loop does to a step it accepts. *)
Definition linked_step (all : list Step) (s s' : Step) : Prop :=
  Name s' = Name s /\ Command s' = Command s /\
  DependsOn s' = DependsOn s /\ status s' = status s /\
  exists ks, dependsOn s' = dependsOn s ++ ks /\
    Forall2 (fun n k => findStepByName all n = Some k) (DependsOn s) ks.

(** Some step of the document has the name [n]. *)
Definition resolves (d : Document) (n : string) : Prop :=
  exists u, u ∈ doc_steps d /\ doc_name u = n.

(** How far a status is along Idle, Pending, Running, done. *)
Definition rank (st : Status) : nat :=
  match st with
  | Idle => 0
  | Pending => 1
  | Running => 2
  | Success | Failed => 3
  end.

(** [x'] is the step [x] later in a run: the same name, command and
    dependencies, a status that is not behind, and the same status when
    [x] was done. *)
Definition advances (x x' : Step) : Prop :=
  Name x' = Name x /\ Command x' = Command x /\
  DependsOn x' = DependsOn x /\ dependsOn x' = dependsOn x /\
  (rank (status x) <= rank (status x'))%nat /\
  (isDone x = true -> status x' = status x).

(** Every resolved dependency of [x] is Success in [l]. *)
Definition dependencies_succeeded (l : list Step) (x : Step) : Prop :=
  Forall (fun d => exists y, l !! d = Some y /\ status y = Success)
    (dependsOn x).

(** Every step that has left Idle has all its dependencies Success. *)
Definition in_order (l : list Step) : Prop :=
  forall i x, l !! i = Some x -> status x <> Idle ->
    dependencies_succeeded l x.

(** Where a raised stop flag and an error under check come from: the
    flag was up on entry or a step returned an error that is not nil,
    and an error under check was returned by the step of that
    goroutine. *)
Definition stop_explained (w : Workflow) (ls : list Label) (s : State)
  : Prop :=
  (forall j t err, tasks s !! j = Some t -> at_ t = TCheck err ->
     exists ok, run_exit j ok err ∈ ls) /\
  (stop s = true ->
     stopFlag w = true \/
     exists j ok err, run_exit j ok err ∈ ls /\ not_nil err = true).

(** The state an execution ends in. *)
Definition final (ls : list Label) (w : Workflow) : State :=
  default (enter w) (exec ls (enter w)).

End Workflow.

(* ================================================================== *)
(** * workflow.go (the sequential workflow) *)
(* ================================================================== *)

Module Sequential.
Import Go.

(** [WorkflowOptions]: both fields are pointers, [None] is nil.  This
    file calls the sink type [Sink] and the options of a spinner
    [SpinnerOptions]; they are [SpinnerSink] and [Options] of
    spinner.go. *)
Record WorkflowOptions := {
  NotificationManager_ : option Spinner.NotificationManager;
  Sink : option Spinner.SpinnerSink
}.

(** A step of this workflow is the command string handed to
    [NewSpinner]. *)
Record Workflow := {
  Version : string;
  Metadata : list (string * string);
  Steps : list string;
  options : option WorkflowOptions
}.

Definition with_options (o : WorkflowOptions) (w : Workflow) : Workflow :=
  {| Version := Version w; Metadata := Metadata w; Steps := Steps w;
     options := Some o |}.

Inductive load_result : Type :=
| Loaded (w : Workflow)
| LoadError (e : errval)
| LoadPanic (msg : string).

(** [LoadWorkflowFromBytes].  [parsed] is what [yaml.Unmarshal] made of
    the bytes: an error or the workflow. *)
Definition LoadWorkflowFromBytes (parsed : errval + Workflow)
  (o : option WorkflowOptions) : load_result :=
  match parsed with
  | inl err => LoadError err
  | inr workflow =>
      match o with
      | None => LoadPanic "no options"
      | Some opts =>
          match Sink opts with
          | None => LoadPanic "no sink"
          | Some _ =>
              match NotificationManager_ opts with
              | None => LoadPanic "no notification manager"
              | Some _ => Loaded (with_options opts workflow)
              end
          end
      end
  end.

(** [LoadWorkflowFromReader] *)
Definition LoadWorkflowFromReader {B : Type}
  (unmarshal : B -> errval + Workflow) (reader : errval + B)
  (o : option WorkflowOptions) : load_result :=
  match reader with
  | inl err => LoadError err
  | inr buff => LoadWorkflowFromBytes (unmarshal buff) o
  end.

(** How [Run] ends: it returns, the process exits, or it panics. *)
Inductive run_result : Type :=
| Done (err : error)
| Exit (code : Z)
| Panicked (msg : string).

(** The options [Run] builds for the spinners. *)
Definition spinner_options (o : WorkflowOptions) : Spinner.Options :=
  {| Spinner.Sink := Sink o;
     Spinner.NotificationManager_ := NotificationManager_ o |}.

(** The loop of [Run] from step number [k] on.  [ids k] is the uuid
    drawn for the spinner of step [k] and [procs k] is what its process
    does. *)
Fixpoint run_steps (o : Spinner.Options) (ids : nat -> string)
  (procs : nat -> Spinner.Process) (k : nat) (steps : list string)
  : Spinner.M run_result :=
  match steps with
  | [] => Spinner.ret (Done nil)
  | step :: rest =>
      match Spinner.NewSpinner (ids k) step o with
      | Spinner.Panic msg => Spinner.ret (Panicked msg)
      | Spinner.Fail msg => Spinner.ret (Done (Err (errorString msg)))
      | Spinner.Ok spinner =>
          Spinner.bind (Spinner.Run spinner (procs k))
            (fun err =>
               if not_nil err then Spinner.ret (Done err)
               else run_steps o ids procs (S k) rest)
      end
  end.

(** [Workflow.Run].  [start] is what [NotificationManager.Start]
    returned; on an error the process exits with code 1.  A workflow
    without options makes [w.options.Sink] dereference nil. *)
Definition Run (w : Workflow) (start : option errval)
  (ids : nat -> string) (procs : nat -> Spinner.Process)
  : Spinner.M run_result :=
  match options w with
  | None => Spinner.ret (Panicked "nil pointer dereference")
  | Some o =>
      match start with
      | Some _ => Spinner.ret (Exit 1)
      | None => run_steps (spinner_options o) ids procs 0 (Steps w)
      end
  end.

(** The spinner [NewSpinner] builds for a command. *)
Definition spinner_of (id command : string) (o : Spinner.Options)
  : Spinner.Spinner :=
  {| Spinner.uuid := id; Spinner.options := o;
     Spinner.cmd := hd EmptyString (Split command space);
     Spinner.args := tl (Split command space) |}.

(** The events of the steps from number [k] on, when all of them run. *)
Fixpoint trace (o : Spinner.Options) (ids : nat -> string)
  (procs : nat -> Spinner.Process) (k : nat) (steps : list string)
  : list Spinner.Event :=
  match steps with
  | [] => []
  | step :: rest =>
      Spinner.events (spinner_of (ids k) step o) (procs k) ++
      trace o ids procs (S k) rest
  end.

(** Every step from number [k] on makes its spinner return nil. *)
Fixpoint all_return_nil (o : Spinner.Options) (ids : nat -> string)
  (procs : nat -> Spinner.Process) (k : nat) (steps : list string) : bool :=
  match steps with
  | [] => true
  | step :: rest =>
      negb (not_nil (Spinner.returned (spinner_of (ids k) step o) (procs k)))
      && all_return_nil o ids procs (S k) rest
  end.

(** The process was launched, the wait reported its exit (status 0, or
    an exit error with a wait status), and the deadline had not
    passed. *)
Definition exits_in_time (p : Spinner.Process) : Prop :=
  Spinner.Start p = None /\
  (Spinner.Wait p = None \/
   exists w, Spinner.Wait p = Some (ExitError (Some w))) /\
  Spinner.CtxErr p <> Some DeadlineExceeded.

End Sequential.

(* ================================================================== *)
(** * Concrete runs, documents and executions *)
(* ================================================================== *)

Module SpinnerExamples.
Import Go Spinner.

Definition valid_options : Options :=
  {| Sink := Some {| StdErr := 2; StdOut := 1 |};
     NotificationManager_ := Some {| manager := 0 |} |}.

Definition demo_spinner : Spinner :=
  {| uuid := "6ba7b810-9dad-11d1-80b4-00c04fd430c8";
     options := valid_options; cmd := "sleep"; args := ["1"] |}.

(** The process exits with status 1 (raw wait status 256) within the
    timeout. *)
Definition exits_one : Process :=
  {| Start := None; Wait := Some (ExitError (Some 256%Z)); CtxErr := None |}.

(** Copying the output of the process fails; no timeout. *)
Definition wait_fails : Process :=
  {| Start := None; Wait := Some (errorString "write |1: broken pipe");
     CtxErr := None |}.

(** The wait fails and the deadline has passed when it is over. *)
Definition wait_fails_late : Process :=
  {| Start := None; Wait := Some (errorString "write |1: broken pipe");
     CtxErr := Some DeadlineExceeded |}.

(** The process exits with status 0, after the deadline. *)
Definition exits_zero_late : Process :=
  {| Start := None; Wait := None; CtxErr := Some DeadlineExceeded |}.

(** "ls", a tab, "-l" *)
Definition ls_tab_l : string := String "l" (String "s" (String tab "-l")).

End SpinnerExamples.

Module WorkflowExamples.
Import Go Workflow.

(** A document with the step "build" depending on "ghost", which no
    step is named. *)
Definition ghost_document : Document :=
  {| doc_version := "1"; doc_metadata := [];
     doc_steps := [ {| doc_name := "fetch"; doc_command := "git pull";
                       doc_depends_on := [] |};
                    {| doc_name := "build"; doc_command := "make";
                       doc_depends_on := ["fetch"; "ghost"] |} ] |}.

Definition some_options : WorkflowOptions :=
  {| Notifier := Some 0%nat; Concurrency := 2; Timeout := 60 |}.

Definition independent (names : list string) : Document :=
  {| doc_version := "1"; doc_metadata := [];
     doc_steps := (fun n => {| doc_name := n; doc_command := "sleep 1";
                               doc_depends_on := [] |}) <$> names |}.

Definition with_concurrency (n : Z) : WorkflowOptions :=
  {| Notifier := Some 0%nat; Concurrency := n; Timeout := 60 |}.

(** Two steps named "a", and a step "b" that depends on "a". *)
Definition duplicate_names : Document :=
  {| doc_version := "1"; doc_metadata := [];
     doc_steps := [ {| doc_name := "a"; doc_command := "true";
                       doc_depends_on := [] |};
                    {| doc_name := "a"; doc_command := "false";
                       doc_depends_on := [] |};
                    {| doc_name := "b"; doc_command := "make";
                       doc_depends_on := ["a"] |} ] |}.

(** The loop claims a step, takes a unit and starts its goroutine. *)
Definition dispatch : list Label :=
  [run_main; run_main; run_main; run_main; run_main].

(** Goroutine [j] registers with the wait group and starts its step. *)
Definition start (j : nat) : list Label := [run_task j; run_task j].

(** Three steps, two units: two steps run, the loop waits in
    [Acquire] for the third. *)
Definition two_of_three : list Label :=
  dispatch ++ dispatch ++ start 0 ++ start 1 ++ [run_main; run_main; run_main].

(** Two steps run; the first one times out, its goroutine raises the
    stop flag, and the loop sees it. *)
Definition stop_while_running : list Label :=
  dispatch ++ dispatch ++ start 0 ++ start 1 ++
  [run_exit 0 false (Err DeadlineExceeded); run_task 0; run_main].

(** One unit: the first step runs, the loop waits in [Acquire] for the
    second, the caller cancels the context, and [Acquire] fails. *)
Definition cancel_while_running : list Label :=
  dispatch ++ start 0 ++ [run_main; run_main; run_main] ++
  [run_cancel Canceled; run_acquire_fails].

(** One step, whose [Run] returns what [Spinner.Run] returns when the
    wait fails; its goroutine raises the stop flag and the loop
    returns. *)
Definition wait_error_in_step : list Label :=
  dispatch ++ start 0 ++
  [run_exit 0 false
     (Spinner.returned SpinnerExamples.demo_spinner
        SpinnerExamples.wait_fails);
   run_task 0; run_main].

(** Step "b" depends on step "a". *)
Definition chain : Document :=
  {| doc_version := "1"; doc_metadata := [];
     doc_steps := [ {| doc_name := "a"; doc_command := "make a";
                       doc_depends_on := [] |};
                    {| doc_name := "b"; doc_command := "make b";
                       doc_depends_on := ["a"] |} ] |}.

(** Goroutine [j] sees its step end, checks the error, releases its
    unit and leaves the wait group. *)
Definition complete (j : nat) (ok : bool) (err : error) : list Label :=
  [run_exit j ok err; run_task j; run_task j; run_task j].

(** The first step runs to Success, then the second is dispatched. *)
Definition a_then_b : list Label :=
  dispatch ++ start 0 ++ complete 0 true nil ++ dispatch.

(** Both steps run to Success one after the other and the loop reaches
    the join. *)
Definition both_succeed : list Label :=
  a_then_b ++ start 1 ++ complete 1 true nil ++ [run_main; run_main].

(** The first step fails without an error value, so the stop flag stays
    down; the loop finds nothing to claim. *)
Definition a_fails_quietly : list Label :=
  dispatch ++ start 0 ++ complete 0 false nil ++
  [run_main; run_main; run_main].

End WorkflowExamples.

Module SequentialExamples.
Import Go.

Definition both_set : Sequential.WorkflowOptions :=
  {| Sequential.NotificationManager_ := Some {| Spinner.manager := 0 |};
     Sequential.Sink := Some {| Spinner.StdErr := 2; Spinner.StdOut := 1 |} |}.

(** Three commands, as parsed and as loaded. *)
Definition parsed_three : Sequential.Workflow :=
  {| Sequential.Version := "1"; Sequential.Metadata := [];
     Sequential.Steps := ["make lint"; "make test"; "make install"];
     Sequential.options := None |}.

Definition three_commands : Sequential.Workflow :=
  Sequential.with_options both_set parsed_three.

Definition uuids (k : nat) : string :=
  match k with 0 => "u0" | 1 => "u1" | _ => "u2" end.

(** The first command exits 0, the second exits 1, the third exits 0,
    all within the timeout. *)
Definition second_exits_one (k : nat) : Spinner.Process :=
  match k with
  | 1 => SpinnerExamples.exits_one
  | _ => {| Spinner.Start := None; Spinner.Wait := None;
            Spinner.CtxErr := None |}
  end.

(** The first command exits 0 and the second cannot be launched. *)
Definition second_not_found (k : nat) : Spinner.Process :=
  match k with
  | 1 => {| Spinner.Start := Some (errorString "executable file not found");
            Spinner.Wait := None; Spinner.CtxErr := None |}
  | _ => {| Spinner.Start := None; Spinner.Wait := None;
            Spinner.CtxErr := None |}
  end.

End SequentialExamples.

(* ================================================================== *)
(** * Properties of [strings.Split] *)
(* ================================================================== *)

Section SplitFacts.
Import Go.
Variable sep : ascii.

Lemma cut_none_count s : cut sep s = None -> Count sep s = 0%nat.
Proof.
  induction s as [|c r IH]; simpl; [done|].
  destruct (decide (c = sep)); [done|].
  destruct (cut sep r) as [[h t]|]; [done|]. intros _. by rewrite IH.
Qed.

Lemma cut_some_count s h t :
  cut sep s = Some (h, t) -> Count sep s = S (Count sep t).
Proof.
  revert h. induction s as [|c r IH]; simpl; intros h; [done|].
  destruct (decide (c = sep)).
  - intros [= <- <-]. done.
  - destruct (cut sep r) as [[h' t']|] eqn:E; [|done].
    intros [= <- <-]. by rewrite (IH h').
Qed.

Lemma cut_free s : has_byte sep s = false -> cut sep s = None.
Proof.
  induction s as [|c r IH]; simpl; [done|].
  destruct (decide (c = sep)); [done|]. intros H. by rewrite IH.
Qed.

Lemma cut_append h t :
  has_byte sep h = false ->
  cut sep (String.append h (String sep t)) = Some (h, t).
Proof.
  induction h as [|c r IH]; simpl.
  - intros _. by destruct (decide (sep = sep)).
  - destruct (decide (c = sep)); [done|]. intros H. by rewrite IH.
Qed.

Lemma cut_head_free s h t :
  cut sep s = Some (h, t) -> has_byte sep h = false.
Proof.
  revert h. induction s as [|c r IH]; simpl; intros h; [done|].
  destruct (decide (c = sep)).
  - by intros [= <- <-].
  - destruct (cut sep r) as [[h' t']|]; [|done].
    intros [= <- <-]. simpl. destruct (decide (c = sep)); [done|]. by eapply IH.
Qed.

Lemma cut_rebuild s h t :
  cut sep s = Some (h, t) -> s = String.append h (String sep t).
Proof.
  revert h. induction s as [|c r IH]; simpl; intros h; [done|].
  destruct (decide (c = sep)) as [->|].
  - by intros [= <- <-].
  - destruct (cut sep r) as [[h' t']|]; [|done].
    intros [= <- <-].
    change (String c r = String c (String.append h' (String sep t'))).
    f_equal. by apply IH.
Qed.

Lemma genSplit_nonempty n s : (1 <= length (genSplit sep n s))%nat.
Proof.
  destruct n; simpl; [lia|].
  destruct (cut sep s) as [[h t]|]; simpl; lia.
Qed.

Lemma Split_nonempty s : (1 <= length (Split s sep))%nat.
Proof. apply genSplit_nonempty. Qed.

(** Splitting what [Join] built from pieces without the separator
    gives the pieces back. *)
Lemma Split_Join p ps :
  Forall (fun x => has_byte sep x = false) (p :: ps) ->
  Split (Join (p :: ps) sep) sep = p :: ps.
Proof.
  unfold Split. revert p. induction ps as [|q qs IH]; intros p Hf.
  - simpl. apply Forall_cons in Hf as [Hp _].
    rewrite (cut_none_count _ (cut_free _ Hp)). done.
  - apply Forall_cons in Hf as [Hp Hq].
    change (Join (p :: q :: qs) sep)
      with (String.append p (String sep (Join (q :: qs) sep))).
    rewrite (cut_some_count _ _ _ (cut_append _ _ Hp)). simpl genSplit.
    rewrite (cut_append _ _ Hp). f_equal. by apply IH.
Qed.

(** Every string is the [Join] of its pieces, and no piece holds the
    separator. *)
Lemma genSplit_spec n s :
  n = Count sep s ->
  Join (genSplit sep n s) sep = s /\
  Forall (fun x => has_byte sep x = false) (genSplit sep n s).
Proof.
  revert s. induction n as [|n IH]; intros s Hn; simpl.
  - split; [done|]. apply Forall_singleton.
    clear -Hn. induction s as [|c r IHr]; simpl in *; [done|].
    destruct (decide (c = sep)); [done|]. apply IHr. lia.
  - destruct (cut sep s) as [[h t]|] eqn:E.
    + pose proof (cut_some_count _ _ _ E) as Hc.
      destruct (IH t ltac:(lia)) as [Hj Hf]. split.
      * pose proof (genSplit_nonempty n t) as Hl.
        destruct (genSplit sep n t) as [|x xs] eqn:G; [simpl in Hl; lia|].
        change (Join (h :: x :: xs) sep)
          with (String.append h (String sep (Join (x :: xs) sep))).
        rewrite Hj. symmetry. by apply cut_rebuild.
      * apply Forall_cons. split; [by eapply cut_head_free|done].
    + apply cut_none_count in E. lia.
Qed.

Lemma Split_spec s :
  Join (Split s sep) sep = s /\
  Forall (fun x => has_byte sep x = false) (Split s sep).
Proof. by apply genSplit_spec. Qed.

End SplitFacts.

(* ================================================================== *)
(** * The process runner *)
(* ================================================================== *)

Section SpinnerFacts.
Import Go Spinner SpinnerExamples.

(** Membership in a list of event kinds is decided by evaluation. *)
Ltac decide_list :=
  match goal with
  | |- ?P => apply (bool_decide_unpack P); vm_compute; exact I
  end.

(** All the runs there are: the kinds emitted and the value returned. *)
Lemma Run_table (s : Spinner) (p : Process) :
  (exists e, Start p = Some e /\
     kinds s p = [EventRunRequested; EventRunError] /\
     returned s p = Err e) \/
  (Start p = None /\ ~ wait_reports_exit p /\
     kinds s p = [EventRunRequested; EventRunStarted; EventRunWaitError] /\
     returned s p = nilExitError) \/
  (Start p = None /\ (exists w, Wait p = Some (ExitError (Some w))) /\
     CtxErr p <> Some DeadlineExceeded /\
     kinds s p = [EventRunRequested; EventRunStarted; EventRunFail;
                  EventRunSuccess] /\
     returned s p = nil) \/
  (Start p = None /\ (exists w, Wait p = Some (ExitError (Some w))) /\
     CtxErr p = Some DeadlineExceeded /\
     kinds s p = [EventRunRequested; EventRunStarted; EventRunFail;
                  EventRunTimeout] /\
     returned s p = Err DeadlineExceeded) \/
  (Start p = None /\ (Wait p = None \/ Wait p = Some (ExitError None)) /\
     CtxErr p <> Some DeadlineExceeded /\
     kinds s p = [EventRunRequested; EventRunStarted; EventRunSuccess] /\
     returned s p = nil) \/
  (Start p = None /\ (Wait p = None \/ Wait p = Some (ExitError None)) /\
     CtxErr p = Some DeadlineExceeded /\
     kinds s p = [EventRunRequested; EventRunStarted; EventRunTimeout] /\
     returned s p = Err DeadlineExceeded).
Proof.
  destruct p as [st wt cx]. unfold kinds, events, returned, Run, finish,
    wait_reports_exit. simpl.
  destruct st as [e|].
  { left. exists e. done. }
  right.
  destruct wt as [[[w|]| | |m]|];
    try (left; split; [done|]; split; [|done];
         intros [H|[sys H]]; discriminate H).
  - right. destruct (decide (cx = Some DeadlineExceeded)) as [->|Hc].
    + right. left. repeat split; eauto.
    + left. repeat split; eauto.
  - right. right. right. destruct (decide (cx = Some DeadlineExceeded)) as [->|Hc].
    + right. repeat split; eauto.
    + left. repeat split; eauto.
  - right. right. right. destruct (decide (cx = Some DeadlineExceeded)) as [->|Hc].
    + right. repeat split; eauto.
    + left. repeat split; eauto.
Qed.

(** C1.  A process that exits with status 1 within the timeout makes
    [Run] emit RunFail and then RunSuccess: two terminal kinds in one
    run, so the events are no prefix of
    RunRequested, RunStarted, one terminal kind. *)
Theorem Run_emits_fail_then_success (s : Spinner) :
  kinds s exits_one =
    [EventRunRequested; EventRunStarted; EventRunFail; EventRunSuccess] /\
  length (filter terminal (kinds s exits_one)) = 2%nat /\
  events s exits_one !! 2%nat =
    Some (NewEvent s EventRunFail (PStatus 256%Z)) /\
  ExitStatus 256%Z = 1%Z /\
  returned s exits_one = nil.
Proof. done. Qed.

(** C2.  When the wait fails with an error that is no exit error, [Run]
    emits RunWaitError and returns the nil [*exec.ExitError] of the
    failed type assertion: a value that is not nil and is not the wait
    error. *)
Theorem Run_wait_error_returns_nil_pointer (s : Spinner) (p : Process)
  (e : errval) :
  Start p = None ->
  Wait p = Some e ->
  (forall sys, e <> ExitError sys) ->
  kinds s p = [EventRunRequested; EventRunStarted; EventRunWaitError] /\
  returned s p = nilExitError /\
  returned s p <> Err e /\
  not_nil (returned s p) = true.
Proof.
  intros Hs Hw He.
  destruct (Run_table s p) as
    [(x & Hx & _)|[(_ & _ & Hk & Hr)|[H|[H|[H|H]]]]].
  - congruence.
  - rewrite Hk, Hr. done.
  - destruct H as (_ & (w & Hw') & _). rewrite Hw in Hw'.
    injection Hw' as ->. by destruct (He (Some w)).
  - destruct H as (_ & (w & Hw') & _). rewrite Hw in Hw'.
    injection Hw' as ->. by destruct (He (Some w)).
  - destruct H as (_ & [Hw'|Hw'] & _); rewrite Hw in Hw'; [done|].
    injection Hw' as ->. by destruct (He None).
  - destruct H as (_ & [Hw'|Hw'] & _); rewrite Hw in Hw'; [done|].
    injection Hw' as ->. by destruct (He None).
Qed.

Lemma Run_wait_error_returns_nil_pointer_witness :
  kinds demo_spinner wait_fails =
    [EventRunRequested; EventRunStarted; EventRunWaitError] /\
  returned demo_spinner wait_fails = nilExitError /\
  returned demo_spinner wait_fails <>
    Err (errorString "write |1: broken pipe") /\
  not_nil (returned demo_spinner wait_fails) = true.
Proof.
  apply (Run_wait_error_returns_nil_pointer demo_spinner wait_fails
           (errorString "write |1: broken pipe")).
  - reflexivity.
  - reflexivity.
  - intros sys H. discriminate H.
Defined.

(** C3.  When the process exits with a non-zero status (the wait
    returns an exit error carrying a wait status) and the deadline has
    not passed, [Run] emits RunSuccess, after RunFail, and returns
    nil. *)
Theorem Run_success_after_nonzero_exit (s : Spinner) (p : Process)
  (w : WaitStatus) :
  Start p = None ->
  Wait p = Some (ExitError (Some w)) ->
  CtxErr p <> Some DeadlineExceeded ->
  emits EventRunFail s p /\ emits EventRunSuccess s p /\
  returned s p = nil.
Proof.
  intros Hs Hw Hc. unfold emits.
  destruct (Run_table s p) as
    [(x & Hx & _)|[(_ & Hn & _)|[H|[H|[H|H]]]]].
  - congruence.
  - destruct Hn. right. eauto.
  - destruct H as (_ & _ & _ & -> & ->). repeat split; decide_list.
  - destruct H as (_ & _ & Hc' & _). done.
  - destruct H as (_ & [Hw'|Hw'] & _); congruence.
  - destruct H as (_ & _ & Hc' & _). done.
Qed.

Lemma Run_success_after_nonzero_exit_witness :
  emits EventRunFail demo_spinner exits_one /\
  emits EventRunSuccess demo_spinner exits_one /\
  returned demo_spinner exits_one = nil.
Proof.
  apply (Run_success_after_nonzero_exit demo_spinner exits_one 256%Z).
  - reflexivity.
  - reflexivity.
  - intros H. discriminate H.
Defined.

(** C4, as stated, fails: the launch succeeds and the deadline has
    passed, but the wait failed, and [Run] emits RunWaitError, no
    RunTimeout, and does not return the deadline error. *)
Lemma Run_timeout_after_wait_error :
  Start wait_fails_late = None /\
  CtxErr wait_fails_late = Some DeadlineExceeded /\
  ~ emits EventRunTimeout demo_spinner wait_fails_late /\
  returned demo_spinner wait_fails_late <> Err DeadlineExceeded.
Proof.
  repeat split; try done.
  unfold emits. decide_list.
Qed.

(** C4, amended.  When the launch succeeded and the deadline has passed
    once the wait is over, RunSuccess is not emitted; when the wait
    reported the exit of the process (status 0 or not) [Run] emits
    RunTimeout and returns the deadline error; and when the wait itself
    failed [Run] has emitted RunWaitError and emits no RunTimeout. *)
Theorem Run_timeout_precedes_success (s : Spinner) (p : Process) :
  Start p = None ->
  CtxErr p = Some DeadlineExceeded ->
  ~ emits EventRunSuccess s p /\
  (wait_reports_exit p ->
     emits EventRunTimeout s p /\ returned s p = Err DeadlineExceeded) /\
  (~ wait_reports_exit p ->
     emits EventRunWaitError s p /\ ~ emits EventRunTimeout s p).
Proof.
  intros Hs Hc. unfold emits.
  destruct (Run_table s p) as
    [(x & Hx & _)|[(_ & Hn & Hk & _)|[H|[H|[H|H]]]]].
  - congruence.
  - rewrite Hk. split; [decide_list|]. split; [by intros Hw|].
    intros _. split; decide_list.
  - destruct H as (_ & _ & Hc' & _). done.
  - destruct H as (_ & (w & Hw) & _ & -> & ->). split; [decide_list|].
    split; [intros _; split; [decide_list|done]|].
    intros Hn. destruct Hn. right. eauto.
  - destruct H as (_ & _ & Hc' & _). done.
  - destruct H as (_ & Hw & _ & -> & ->). split; [decide_list|].
    split; [intros _; split; [decide_list|done]|].
    intros Hn. destruct Hn. destruct Hw as [Hw|Hw]; [by left|right; eauto].
Qed.

Lemma Run_timeout_precedes_success_witness :
  ~ emits EventRunSuccess demo_spinner exits_zero_late /\
  emits EventRunTimeout demo_spinner exits_zero_late /\
  returned demo_spinner exits_zero_late = Err DeadlineExceeded.
Proof.
  destruct (Run_timeout_precedes_success demo_spinner exits_zero_late)
    as (H1 & H2 & _).
  - reflexivity.
  - reflexivity.
  - split; [exact H1|]. apply H2. left. reflexivity.
Defined.

End SpinnerFacts.

(* ================================================================== *)
(** * [NewSpinner] and the command string *)
(* ================================================================== *)

Section NewSpinnerFacts.
Import Go Spinner SpinnerExamples.

(** C9, as stated, fails: a run of two spaces gives an empty first
    argument, and a tab separates nothing, so neither command yields
    the executable and arguments of "ls -l". *)
Lemma NewSpinner_runs_of_spaces_and_tabs :
  NewSpinner "id" "ls -l" valid_options =
    Ok {| uuid := "id"; options := valid_options;
          cmd := "ls"; args := ["-l"] |} /\
  NewSpinner "id" "ls  -l" valid_options =
    Ok {| uuid := "id"; options := valid_options;
          cmd := "ls"; args := [""; "-l"] |} /\
  NewSpinner "id" ls_tab_l valid_options =
    Ok {| uuid := "id"; options := valid_options;
          cmd := ls_tab_l; args := [] |} /\
  NewSpinner "id" "ls  -l" valid_options <>
    NewSpinner "id" "ls -l" valid_options /\
  NewSpinner "id" ls_tab_l valid_options <>
    NewSpinner "id" "ls -l" valid_options.
Proof. repeat split; discriminate. Qed.

(** C9, amended.  The command is cut at every single space (byte 32)
    and at nothing else: when the command is the pieces [p :: ps],
    none of them holding a space, joined by one space each, the
    executable is [p] and the arguments are [ps], in order and
    unchanged; and every command is such a join of its pieces. *)
Theorem NewSpinner_splits_at_each_space (id : string) (o : Options)
  (p : string) (ps : list string) :
  Sink o <> None ->
  NotificationManager_ o <> None ->
  Forall (fun x => has_byte space x = false) (p :: ps) ->
  NewSpinner id (Join (p :: ps) space) o =
    Ok {| uuid := id; options := o; cmd := p; args := ps |} /\
  forall command,
    Join (Split command space) space = command /\
    Forall (fun x => has_byte space x = false) (Split command space).
Proof.
  intros Hs Hn Hf. split; [|intros command; apply Split_spec].
  unfold NewSpinner.
  destruct (Sink o); [|done]. destruct (NotificationManager_ o); [|done].
  rewrite (Split_Join _ _ _ Hf). simpl.
  destruct (decide (S (length ps) < 1)%nat); [lia|done].
Qed.

Lemma NewSpinner_splits_at_each_space_witness :
  NewSpinner "id" (Join ["go"; "test"; ""; "./..."] space) valid_options =
    Ok {| uuid := "id"; options := valid_options;
          cmd := "go"; args := ["test"; ""; "./..."] |} /\
  forall command,
    Join (Split command space) space = command /\
    Forall (fun x => has_byte space x = false) (Split command space).
Proof.
  apply (NewSpinner_splits_at_each_space "id" valid_options
           "go" ["test"; ""; "./..."]).
  - discriminate.
  - discriminate.
  - repeat constructor.
Defined.

(** C10.  [Split] yields at least one element for every command, so
    with a sink and a notification manager [NewSpinner] returns a
    spinner for every command: the executable is the first piece and
    the arguments are the others.  The empty command gives the empty
    executable and no arguments. *)
Theorem NewSpinner_never_fails (id command : string)
  (sink : SpinnerSink) (nm : NotificationManager) :
  (1 <= length (Split command space))%nat /\
  NewSpinner id command
    {| Sink := Some sink; NotificationManager_ := Some nm |} =
    Ok {| uuid := id;
          options := {| Sink := Some sink; NotificationManager_ := Some nm |};
          cmd := hd EmptyString (Split command space);
          args := tl (Split command space) |} /\
  NewSpinner id ""
    {| Sink := Some sink; NotificationManager_ := Some nm |} =
    Ok {| uuid := id;
          options := {| Sink := Some sink; NotificationManager_ := Some nm |};
          cmd := ""; args := [] |}.
Proof.
  pose proof (Split_nonempty space command) as Hl.
  split; [done|]. split; [|done].
  unfold NewSpinner. simpl.
  destruct (decide (length (Split command space) < 1)%nat); [lia|done].
Qed.

End NewSpinnerFacts.

(* ================================================================== *)
(** * Loading a workflow: the dependency check *)
(* ================================================================== *)

Section LoadFacts.
Import Go Workflow WorkflowExamples.

Lemma findStepByName_None l n :
  findStepByName l n = None <-> Forall (fun s => Name s <> n) l.
Proof.
  induction l as [|s r IH]; simpl.
  - split; [constructor|done].
  - destruct (decide (Name s = n)) as [E|E].
    + split; [done|]. intros H%Forall_cons. by destruct H.
    + rewrite Forall_cons, <- IH.
      destruct (findStepByName r n); simpl;
        (split; [intros ?; by split|intros [_ ?]; done]).
Qed.

Lemma link_spec all step names acc :
  match link all step names acc with
  | inl e => exists dep, dep ∈ names /\ findStepByName all dep = None /\
                         e = errorString (invalid_step_name step dep)
  | inr _ => Forall (fun dep => is_Some (findStepByName all dep)) names
  end.
Proof.
  revert acc. induction names as [|n r IH]; intros acc; simpl.
  - constructor.
  - destruct (findStepByName all n) as [i|] eqn:E.
    + specialize (IH (acc ++ [i])).
      destruct (link all step r (acc ++ [i])).
      * destruct IH as (dep & Hin & Hn & ->). exists dep.
        split; [by apply elem_of_cons; right|done].
      * apply Forall_cons. split; [by rewrite E|done].
    + exists n. split; [by apply elem_of_cons; left|done].
Qed.

Lemma link_all_spec all todo :
  match link_all all todo with
  | inl e => exists s dep, s ∈ todo /\ dep ∈ DependsOn s /\
                           findStepByName all dep = None /\
                           e = errorString (invalid_step_name (Name s) dep)
  | inr _ => Forall (fun s => Forall (fun dep => is_Some (findStepByName all dep))
                                (DependsOn s)) todo
  end.
Proof.
  induction todo as [|s r IH]; simpl.
  - constructor.
  - pose proof (link_spec all (Name s) (DependsOn s) (dependsOn s)) as Hl.
    destruct (link all (Name s) (DependsOn s) (dependsOn s)).
    + destruct Hl as (dep & Hin & Hn & ->). exists s, dep.
      split; [by apply elem_of_cons; left|done].
    + destruct (link_all all r).
      * destruct IH as (s' & dep & Hin & Hd & Hn & ->). exists s', dep.
        split; [by apply elem_of_cons; right|done].
      * apply Forall_cons. done.
Qed.

Lemma append_assoc (a b c : string) :
  String.append (String.append a b) c = String.append a (String.append b c).
Proof.
  induction a as [|x a IH]; [done|].
  change (String x (String.append (String.append a b) c) =
          String x (String.append a (String.append b c))).
  by rewrite IH.
Qed.

Lemma invalid_step_name_names step prior :
  occurs_in step (invalid_step_name step prior) /\
  occurs_in prior (invalid_step_name step prior).
Proof.
  unfold occurs_in, invalid_step_name. split.
  - exists "invalid step name in runs_after for step ",
      (String.append " (" (String.append prior ")")). done.
  - exists (String.append "invalid step name in runs_after for step "
              (String.append step " (")), ")".
    by rewrite !append_assoc.
Qed.

Lemma dangling_decode d :
  dangling d <->
  exists s dep, s ∈ Steps (decode d) /\ dep ∈ DependsOn s /\
                findStepByName (Steps (decode d)) dep = None.
Proof.
  unfold dangling. simpl. split.
  - intros (s & dep & Hs & Hd & Hn). exists (decode_step s), dep.
    split; [by apply list_elem_of_fmap_2|]. split; [done|].
    apply findStepByName_None, Forall_forall. intros x Hx.
    apply list_elem_of_fmap in Hx as (t & -> & Ht). by apply Hn.
  - intros (s & dep & Hs & Hd & Hn).
    apply list_elem_of_fmap in Hs as (s0 & -> & Hs0). exists s0, dep.
    split; [done|]. split; [done|]. intros t Ht.
    rewrite findStepByName_None, Forall_forall in Hn.
    apply (Hn (decode_step t)). by apply list_elem_of_fmap_2.
Qed.

(** C7.  With options and a notifier, a document in which some step
    depends on a name no step has is never loaded; when its version is
    the accepted one the load returns the error of the validation, whose
    message holds the name of the dependent step and the missing name.
    A document whose dependencies all resolve never gets an error from
    the load, and is loaded when its version is the accepted one. *)
Theorem LoadWorkflowFromBytes_dangling (opts : WorkflowOptions)
  (d : Document) :
  Notifier opts <> None ->
  (dangling d ->
     (forall w, LoadWorkflowFromBytes (Some opts) (inr d) <> Loaded w) /\
     (doc_version d = "1" ->
        exists s dep,
          s ∈ doc_steps d /\ dep ∈ doc_depends_on s /\
          (forall t, t ∈ doc_steps d -> doc_name t <> dep) /\
          LoadWorkflowFromBytes (Some opts) (inr d) =
            LoadError (errorString (invalid_step_name (doc_name s) dep)) /\
          occurs_in (doc_name s) (invalid_step_name (doc_name s) dep) /\
          occurs_in dep (invalid_step_name (doc_name s) dep))) /\
  (~ dangling d ->
     (forall e, LoadWorkflowFromBytes (Some opts) (inr d) <> LoadError e) /\
     (doc_version d = "1" ->
        exists w, LoadWorkflowFromBytes (Some opts) (inr d) = Loaded w)).
Proof.
  intros Hn. unfold LoadWorkflowFromBytes.
  destruct (Notifier opts) as [n|]; [clear Hn|done].
  pose proof (link_all_spec (Steps (decode d)) (Steps (decode d))) as Hl.
  change (Version (decode d)) with (doc_version d).
  split.
  - intros Hd. split.
    + intros w. destruct (decide (doc_version d <> "1")); [done|].
      destruct (link_all (Steps (decode d)) (Steps (decode d))); [done|].
      apply dangling_decode in Hd as (s & dep & Hs & Hin & Hnone).
      rewrite Forall_forall in Hl. specialize (Hl s Hs).
      rewrite Forall_forall in Hl. specialize (Hl dep Hin).
      rewrite Hnone in Hl. by destruct Hl.
    + intros Hv. destruct (decide (doc_version d <> "1")); [done|].
      destruct (link_all (Steps (decode d)) (Steps (decode d))).
      * destruct Hl as (s & dep & Hs & Hin & Hnone & ->).
        simpl in Hs. apply list_elem_of_fmap in Hs as (s0 & -> & Hs0).
        exists s0, dep. simpl in *.
        split; [done|]. split; [done|]. split.
        { intros t Ht. rewrite findStepByName_None, Forall_forall in Hnone.
          apply (Hnone (decode_step t)). by apply list_elem_of_fmap_2. }
        split; [done|]. apply invalid_step_name_names.
      * apply dangling_decode in Hd as (s & dep & Hs & Hin & Hnone).
        rewrite Forall_forall in Hl. specialize (Hl s Hs).
        rewrite Forall_forall in Hl. specialize (Hl dep Hin).
        rewrite Hnone in Hl. by destruct Hl.
  - intros Hd.
    assert (forall e, link_all (Steps (decode d)) (Steps (decode d)) <> inl e)
      as Hok.
    { intros e He. rewrite He in Hl. apply Hd, dangling_decode.
      destruct Hl as (s & dep & Hs & Hin & Hnone & _). eauto. }
    split.
    + intros e. destruct (decide (doc_version d <> "1")); [done|].
      destruct (link_all (Steps (decode d)) (Steps (decode d))) eqn:E; [|done].
      by destruct (Hok e0).
    + intros Hv. destruct (decide (doc_version d <> "1")); [done|].
      destruct (link_all (Steps (decode d)) (Steps (decode d))) eqn:E; [|eauto].
      by destruct (Hok e).
Qed.

Lemma LoadWorkflowFromBytes_dangling_witness :
  dangling ghost_document /\
  (forall w, LoadWorkflowFromBytes (Some some_options) (inr ghost_document)
             <> Loaded w) /\
  exists name dep,
    LoadWorkflowFromBytes (Some some_options) (inr ghost_document) =
      LoadError (errorString (invalid_step_name name dep)) /\
    occurs_in name (invalid_step_name name dep) /\
    occurs_in dep (invalid_step_name name dep).
Proof.
  assert (dangling ghost_document) as Hd.
  { exists {| doc_name := "build"; doc_command := "make";
              doc_depends_on := ["fetch"; "ghost"] |}, "ghost".
    split; [apply list_elem_of_further, list_elem_of_here|].
    split; [apply list_elem_of_further, list_elem_of_here|].
    intros t Ht.
    apply elem_of_cons in Ht as [->|Ht]; [discriminate|].
    apply elem_of_cons in Ht as [->|Ht]; [discriminate|].
    by apply elem_of_nil in Ht. }
  split; [exact Hd|].
  destruct (LoadWorkflowFromBytes_dangling some_options ghost_document)
    as [H _]; [discriminate|].
  destruct (H Hd) as [Hnot Hv]. split; [exact Hnot|].
  destruct (Hv eq_refl) as (s & dep & _ & _ & _ & Hl & Hs & Hdep).
  exists (doc_name s), dep. split; [exact Hl|]. split; [exact Hs|exact Hdep].
Defined.

End LoadFacts.

(* ================================================================== *)
(** * Counting in lists *)
(* ================================================================== *)

Section Counting.
Context {A : Type}.

(** Replacing the element at [j] changes the number of elements that
    satisfy [p] by what the old and the new element contribute. *)
Lemma count_insert (p : A -> bool) (l : list A) (j : nat) (x y : A) :
  l !! j = Some x ->
  (length (filter p (<[j := y]> l)) + (if p x then 1 else 0) =
   length (filter p l) + (if p y then 1 else 0))%nat.
Proof.
  revert j. induction l as [|a l IH]; intros j Hj; [done|].
  destruct j as [|j]; simpl in *.
  - injection Hj as ->. rewrite !filter_cons.
    destruct (decide (p x)) as [Hx|Hx], (decide (p y)) as [Hy|Hy];
      destruct (p x), (p y); simpl in *; try done; lia.
  - rewrite !filter_cons. specialize (IH j Hj).
    destruct (decide (p a)); simpl; lia.
Qed.

Lemma count_mono (P Q : A -> Prop)
  `{!forall x, Decision (P x)} `{!forall x, Decision (Q x)} (l : list A) :
  (forall x, P x -> Q x) ->
  (length (filter P l) <= length (filter Q l))%nat.
Proof.
  intros Himp. induction l as [|a l IH]; [done|].
  rewrite !filter_cons.
  destruct (decide (P a)) as [Ha|Ha], (decide (Q a)) as [Hb|Hb]; simpl;
    try lia.
  destruct Hb. by apply Himp.
Qed.

(** When every position that satisfies [P] has its index (shifted by
    [k]) in [J], there are at most [length J] such positions. *)
Lemma count_le_indices (P : A -> Prop) `{!forall x, Decision (P x)}
  (l : list A) (k : nat) (J : list nat) :
  (forall i x, l !! i = Some x -> P x -> (k + i)%nat ∈ J) ->
  (length (filter P l) <= length J)%nat.
Proof.
  revert k J. induction l as [|a l IH]; intros k J Hidx; [simpl; lia|].
  rewrite filter_cons. destruct (decide (P a)) as [Ha|Ha].
  - assert (k ∈ J) as Hk.
    { replace k with (k + 0)%nat by lia. by apply (Hidx 0%nat a). }
    assert (length (filter P l) <= length (filter (fun i => i <> k) J))%nat.
    { apply (IH (S k)). intros i x Hi Hx. apply list_elem_of_filter.
      split; [lia|]. replace (S k + i)%nat with (k + S i)%nat by lia.
      by apply (Hidx (S i) x). }
    assert (length (filter (fun i => i <> k) J) < length J)%nat.
    { apply (length_filter_lt _ _ k); [done|]. intros Hne. by apply Hne. }
    simpl. lia.
  - apply (IH (S k)). intros i x Hi Hx.
    replace (S k + i)%nat with (k + S i)%nat by lia. by apply (Hidx (S i) x).
Qed.

(** An element other than the one replaced stays in the list. *)
Lemma elem_of_insert_other (l : list A) (j : nat) (x y z : A) :
  l !! j = Some x -> z ∈ l -> z <> x -> z ∈ <[j := y]> l.
Proof.
  intros Hj Hz Hne. apply list_elem_of_lookup in Hz as [i Hi].
  apply list_elem_of_lookup. exists i.
  rewrite list_lookup_insert_ne; [done|]. intros ->. congruence.
Qed.

End Counting.

(* ================================================================== *)
(** * The scheduler: admission and the Running steps *)
(* ================================================================== *)

Section SchedulerFacts.
Import Go Workflow SpinnerExamples WorkflowExamples.

Lemma exec_app ls l s :
  exec (ls ++ [l]) s = exec ls s ≫= step l.
Proof.
  revert s. induction ls as [|a ls IH]; intros s; simpl.
  - by destruct (step l s).
  - destruct (step a s); [apply IH|done].
Qed.

(** A property that holds on entry and is kept by every transition
    holds in every state of every execution. *)
Lemma exec_invariant (P : State -> Prop) :
  (forall l s s', P s -> step l s = Some s' -> P s') ->
  forall ls s s', P s -> exec ls s = Some s' -> P s'.
Proof.
  intros Hstep ls. induction ls as [|l ls IH]; intros s s' Hs; simpl.
  - by intros [= <-].
  - destruct (step l s) as [s1|] eqn:E; [|done]. eauto.
Qed.

Lemma running_alter_other (l : list Step) (k i : nat) (st : Step) (x : Status) :
  x <> Running ->
  alter (with_status x) k l !! i = Some st -> status st = Running ->
  l !! i = Some st /\ i <> k.
Proof.
  intros Hx Hl Hr. destruct (decide (k = i)) as [->|Hne].
  - rewrite list_lookup_alter_eq in Hl.
    destruct (l !! i); simplify_eq/=; done.
  - by rewrite list_lookup_alter_ne in Hl.
Qed.

Lemma holding_move ts j t q :
  ts !! j = Some t -> holding t = holding (move t q) ->
  length (filter holding (<[j := move t q]> ts)) =
  length (filter holding ts).
Proof.
  intros Hj Hh. pose proof (count_insert holding ts j t (move t q) Hj) as Hc.
  rewrite <- Hh in Hc. lia.
Qed.

Lemma holding_release ts j t q :
  ts !! j = Some t -> holding t = true -> holding (move t q) = false ->
  length (filter holding ts) =
  S (length (filter holding (<[j := move t q]> ts))).
Proof.
  intros Hj Ht Hq.
  pose proof (count_insert holding ts j t (move t q) Hj) as Hc.
  rewrite Ht, Hq in Hc. lia.
Qed.

Lemma main_step_bounded N s s' :
  bounded N s -> main_step s = Some s' -> bounded N s'.
Proof.
  destruct s as [st sp g jn cx p ts].
  unfold bounded, held, main_step. simpl.
  intros (Hsz & Hcur & Hle & Hrun) Hstep.
  destruct p as [| | |idx|idx| |r]; simpl in *.
  - destruct sp; simplify_eq/=; done.
  - destruct (allDone st); simplify_eq/=; done.
  - unfold nextToRun in Hstep.
    destruct (first_index (shouldRun st) st) as [idx|]; simplify_eq/=;
      [|done].
    repeat split; try done.
    intros i x Hi Hx.
    destruct (running_alter_other st idx i x Pending) as [Hi' _];
      [done..|]. by apply (Hrun i x).
  - unfold acquire in Hstep.
    destruct (decide (1 <= size g - cur g)%Z); simplify_eq/=.
    repeat split; try done; lia.
  - simplify_eq/=. rewrite filter_app, length_app. simpl.
    repeat split; try done; [lia|].
    intros i x Hi Hx. destruct (Hrun i x Hi Hx) as (t & Ht & Htr & Hat).
    exists t. split; [apply elem_of_app; by left|done].
  - destruct (decide (jn = 0)%Z); simplify_eq/=; done.
  - done.
Qed.

Lemma task_step_bounded N j s s' :
  bounded N s -> task_step j s = Some s' -> bounded N s'.
Proof.
  destruct s as [st sp g jn cx p ts].
  unfold bounded, held, task_step, set_task, Run_begins. simpl.
  intros (Hsz & Hcur & Hle & Hrun) Hstep.
  destruct (ts !! j) as [t|] eqn:Hj; [|done].
  assert (forall q, q <> TProcess -> at_ t <> TProcess ->
            forall i x, st !! i = Some x -> status x = Running ->
              exists t0, t0 ∈ <[j := move t q]> ts /\ toRun t0 = i /\
                         at_ t0 = TProcess) as Hkeep.
  { intros q _ Hq i x Hi Hx.
    destruct (Hrun i x Hi Hx) as (t0 & Ht0 & Htr & Hat).
    exists t0. split; [|done].
    eapply elem_of_insert_other; [done..|]. intros ->. done. }
  destruct (at_ t) eqn:Hat; simplify_eq/=.
  - rewrite (holding_move ts j t TRun Hj) by (unfold holding; by rewrite Hat).
    repeat split; try done. by apply Hkeep.
  - rewrite (holding_move ts j t TProcess Hj) by (unfold holding; by rewrite Hat).
    repeat split; try done.
    intros i x Hi Hx. destruct (decide (toRun t = i)) as [<-|Hne].
    + exists (move t TProcess). split; [|done].
      apply list_elem_of_insert. by eapply lookup_lt_Some.
    + rewrite list_lookup_alter_ne in Hi by done.
      destruct (Hrun i x Hi Hx) as (t0 & Ht0 & Htr & Hat0).
      exists t0. split; [|done].
      eapply elem_of_insert_other; [done..|]. intros ->. congruence.
  - destruct (not_nil err); simplify_eq/=;
      rewrite (holding_move ts j t TRelease Hj)
        by (unfold holding; by rewrite Hat);
      (repeat split; try done; by apply Hkeep).
  - rewrite (holding_release ts j t TDone Hj) in Hcur
      by (unfold holding; by rewrite ?Hat).
    repeat split; try done; [lia|lia|]. by apply Hkeep.
  - rewrite (holding_move ts j t TExit Hj) by (unfold holding; by rewrite Hat).
    repeat split; try done. by apply Hkeep.
Qed.

Lemma task_exit_bounded N j ok err s s' :
  bounded N s -> task_exit j ok err s = Some s' -> bounded N s'.
Proof.
  destruct s as [st sp g jn cx p ts].
  unfold bounded, held, task_exit, set_task, Run_ends. simpl.
  intros (Hsz & Hcur & Hle & Hrun) Hstep.
  destruct (ts !! j) as [t|] eqn:Hj; [|done].
  destruct (at_ t) eqn:Hat; simplify_eq/=.
  rewrite (holding_move ts j t (TCheck err) Hj)
    by (unfold holding; by rewrite Hat).
  repeat split; try done.
  intros i x Hi Hx.
  destruct (running_alter_other st (toRun t) i x
              (if ok then Success else Failed)) as [Hi' Hne];
    [by destruct ok|done|done|].
  destruct (Hrun i x Hi' Hx) as (t0 & Ht0 & Htr & Hat0).
  exists t0. split; [|done].
  eapply elem_of_insert_other; [done..|]. intros ->. congruence.
Qed.

Lemma step_bounded N l s s' :
  bounded N s -> step l s = Some s' -> bounded N s'.
Proof.
  destruct l as [| |j|j ok err|e]; simpl.
  - apply main_step_bounded.
  - unfold acquire_fails, bounded, held.
    destruct s as [st sp g jn cx p ts]; simpl.
    intros H Hs. destruct p, cx; simplify_eq/=; done.
  - apply task_step_bounded.
  - apply task_exit_bounded.
  - unfold cancel, bounded, held.
    destruct s as [st sp g jn cx p ts]; simpl.
    intros H Hs. destruct cx; simplify_eq/=; done.
Qed.

Lemma link_all_status all todo r :
  link_all all todo = inr r -> status <$> r = status <$> todo.
Proof.
  revert r. induction todo as [|s todo IH]; intros r; simpl.
  - by intros [= <-].
  - destruct (link all (Name s) (DependsOn s) (dependsOn s)); [done|].
    destruct (link_all all todo) as [|r']; [done|].
    intros [= <-]. simpl. f_equal. by apply IH.
Qed.

(** What a loaded workflow looks like: the semaphore has the configured
    capacity and holds nothing, the stop flag is down and every step is
    Idle. *)
Lemma Loaded_fresh o parsed w :
  LoadWorkflowFromBytes o parsed = Loaded w ->
  exists opts, o = Some opts /\
    gatekeeper w = NewWeighted (Concurrency opts) /\
    stopFlag w = false /\
    Forall (fun s => status s = Idle) (Steps w).
Proof.
  unfold LoadWorkflowFromBytes.
  destruct parsed as [e|d]; [done|]. destruct o as [opts|]; [|done].
  destruct (Notifier opts); [|done].
  destruct (decide (Version (decode d) <> "1")); [done|].
  destruct (link_all (Steps (decode d)) (Steps (decode d))) as [|r] eqn:E;
    [done|].
  intros [= <-]. exists opts. simpl. repeat split; try done.
  apply link_all_status in E. simpl in E.
  apply Forall_forall. intros s Hs.
  assert (status s ∈ status <$> r) as Hin by by apply list_elem_of_fmap_2.
  rewrite E in Hin. rewrite <- list_fmap_compose in Hin.
  apply list_elem_of_fmap in Hin as (x & -> & _). done.
Qed.

Lemma enter_bounded w :
  (0 <= size (gatekeeper w))%Z ->
  cur (gatekeeper w) = 0%Z ->
  Forall (fun s => status s = Idle) (Steps w) ->
  bounded (size (gatekeeper w)) (enter w).
Proof.
  intros Hn Hc Hidle. unfold bounded, held, enter. simpl.
  repeat split; try done; [lia|].
  intros i st Hi Hr. rewrite Forall_forall in Hidle.
  apply list_elem_of_lookup_2 in Hi. apply Hidle in Hi. congruence.
Qed.

(** In a state that satisfies the invariant at most [N] steps are
    Running and the semaphore holds between 0 and [N] units. *)
Lemma bounded_running N s :
  bounded N s ->
  (Z.of_nat (running s) <= N)%Z /\ (0 <= cur (gate s) <= N)%Z.
Proof.
  intros (Hsz & Hcur & Hle & Hrun). unfold running, held in *.
  assert (length (filter (fun st => status st = Running) (steps s)) <=
          length (toRun <$> filter in_process (tasks s)))%nat as H1.
  { apply (count_le_indices _ _ 0%nat). intros i x Hi Hx. simpl.
    destruct (Hrun i x Hi Hx) as (t & Ht & <- & Hat).
    apply list_elem_of_fmap_2, list_elem_of_filter.
    split; [|done]. unfold in_process. by rewrite Hat. }
  rewrite length_fmap in H1.
  assert (length (filter in_process (tasks s)) <=
          length (filter holding (tasks s)))%nat as H2.
  { apply count_mono. intros t. unfold in_process, holding.
    by destruct (at_ t). }
  destruct (pc s); lia.
Qed.

(** C6.  In every state of every execution of [Run] on a workflow
    loaded with concurrency [N >= 0], at most [N] steps are Running,
    and the units held of the semaphore are between 0 and [N]. *)
Theorem Run_bounds_running_steps (opts : WorkflowOptions)
  (parsed : errval + Document) (w : Workflow) (ls : list Label) (s : State) :
  (0 <= Concurrency opts)%Z ->
  LoadWorkflowFromBytes (Some opts) parsed = Loaded w ->
  exec ls (enter w) = Some s ->
  (Z.of_nat (running s) <= Concurrency opts)%Z /\
  (0 <= cur (gate s) <= Concurrency opts)%Z /\
  size (gate s) = Concurrency opts.
Proof.
  intros Hn Hload Hexec.
  destruct (Loaded_fresh _ _ _ Hload) as (o & [= <-] & Hg & _ & Hidle).
  assert (bounded (Concurrency opts) s) as Hb.
  { eapply (exec_invariant (bounded (Concurrency opts))); [|..|exact Hexec].
    - intros l s1 s2. apply step_bounded.
    - replace (Concurrency opts) with (size (gatekeeper w))
        by by rewrite Hg.
      apply enter_bounded; [|by rewrite Hg|done]. by rewrite Hg. }
  destruct (bounded_running _ _ Hb) as [H1 H2].
  split; [done|]. split; [done|]. by destruct Hb.
Qed.

Lemma step_returns_admission_error ls l s s' :
  returns_admission_error ls s -> step l s = Some s' ->
  returns_admission_error (ls ++ [l]) s'.
Proof.
  unfold returns_admission_error. intros H Hstep r Hr.
  assert (forall r, pc s = Returned r ->
            ctx s' = ctx s \/ ctx s = None ->
            r = nil \/ exists e, r = Err e /\ ctx s' = Some e /\
                                 run_acquire_fails ∈ ls ++ [l]) as Hold.
  { intros r0 Hr0 Hc. destruct (H r0 Hr0) as [->|(e & -> & He & Hin)];
      [by left|right]. exists e. split; [done|].
    split; [|apply elem_of_app; by left].
    destruct Hc as [->|Hc]; [done|congruence]. }
  destruct s as [st sp g jn cx p ts]. destruct l as [| |j|j ok err|e];
    simpl in *.
  - unfold main_step in Hstep. simpl in Hstep.
    destruct p as [| | |idx|idx| |r0]; simpl in *.
    + destruct sp; simplify_eq/=. by left.
    + destruct (allDone st); simplify_eq/=.
    + unfold nextToRun in Hstep.
      destruct (first_index (shouldRun st) st); simplify_eq/=.
    + destruct (acquire g); simplify_eq/=.
    + simplify_eq/=.
    + destruct (decide (jn = 0)%Z); simplify_eq/=. by left.
    + done.
  - unfold acquire_fails in Hstep. simpl in Hstep.
    destruct p, cx; simplify_eq/=. right. exists e.
    split; [done|]. split; [done|]. apply elem_of_app. right.
    apply list_elem_of_here.
  - unfold task_step, set_task in Hstep. simpl in Hstep.
    destruct (ts !! j) as [t|]; [|done].
    destruct (at_ t); try destruct (not_nil err); simplify_eq/=;
      apply Hold; auto.
  - unfold task_exit, set_task in Hstep. simpl in Hstep.
    destruct (ts !! j) as [t|]; [|done].
    destruct (at_ t); simplify_eq/=. apply Hold; auto.
  - unfold cancel in Hstep. simpl in Hstep.
    destruct cx; simplify_eq/=. apply Hold; auto.
Qed.

(** C8, as stated, fails for wait errors: the [Run] of the only step
    returns the error [Spinner.Run] gives when the wait fails, which is
    not nil, and [Workflow.Run] returns nil. *)
Lemma Run_swallows_wait_error :
  not_nil (Spinner.returned demo_spinner wait_fails) = true /\
  Spinner.emits Spinner.EventRunWaitError demo_spinner wait_fails /\
  result <$> exec wait_error_in_step
               (enter (loaded (with_concurrency 1) (independent ["a"]))) =
    Some (Some nil).
Proof.
  split; [done|]. split; [|done].
  unfold Spinner.emits. apply (bool_decide_unpack _). vm_compute. exact I.
Qed.

(** C8, amended.  Whatever the steps do (non-zero exit, timeout, wait
    error, launch error), when [Workflow.Run] returns, it returns nil or
    the error of the context with which an [Acquire] failed. *)
Theorem Run_returns_nil_or_admission_error (w : Workflow)
  (ls : list Label) (s : State) (r : error) :
  exec ls (enter w) = Some s ->
  pc s = Returned r ->
  r = nil \/
  exists e, r = Err e /\ ctx s = Some e /\ run_acquire_fails ∈ ls.
Proof.
  revert s r. induction ls as [|l ls IH] using rev_ind; intros s r.
  - simpl. intros [= <-]. done.
  - rewrite exec_app. destruct (exec ls (enter w)) as [s0|] eqn:E; [|done].
    simpl. intros Hstep.
    apply (step_returns_admission_error ls l s0 s); [|done].
    intros r0. by apply IH.
Qed.

Lemma Run_returns_nil_or_admission_error_witness :
  Err Canceled = nil \/
  exists e, Err Canceled = Err e /\
    ctx (final cancel_while_running
           (loaded (with_concurrency 1) (independent ["a"; "b"]))) = Some e /\
    run_acquire_fails ∈ cancel_while_running.
Proof.
  apply (Run_returns_nil_or_admission_error
           (loaded (with_concurrency 1) (independent ["a"; "b"]))
           cancel_while_running).
  - vm_compute. reflexivity.
  - vm_compute. reflexivity.
Defined.

(** C5.  [Run] returns while goroutines it started still run: through
    the stop flag (the second step is still Running, the first
    goroutine has not released its unit), and through a failed
    [Acquire] (the first step is still Running).  In both states the
    wait group counts the goroutines that are not done. *)
Theorem Run_returns_before_tasks_finish :
  (exists s,
     exec stop_while_running
       (enter (loaded (with_concurrency 2) (independent ["a"; "b"]))) =
       Some s /\
     pc s = Returned nil /\
     tasks s = [ {| toRun := 0; at_ := TRelease |};
                 {| toRun := 1; at_ := TProcess |} ] /\
     status <$> steps s = [Failed; Running] /\
     joiner s = 2%Z) /\
  (exists s,
     exec cancel_while_running
       (enter (loaded (with_concurrency 1) (independent ["a"; "b"]))) =
       Some s /\
     pc s = Returned (Err Canceled) /\
     tasks s = [ {| toRun := 0; at_ := TProcess |} ] /\
     status <$> steps s = [Running; Pending] /\
     joiner s = 1%Z).
Proof.
  split; eexists; (split; [vm_compute; reflexivity|]); done.
Qed.

(** ** The join barrier on normal completion *)

Lemma allDone_lookup st i x :
  allDone st = true -> st !! i = Some x -> isDone x = true.
Proof.
  unfold allDone. rewrite forallb_forall. intros H Hi.
  apply H. apply list_elem_of_In. by eapply list_elem_of_lookup_2.
Qed.

Lemma first_index_Some {A} (p : A -> bool) l i :
  first_index p l = Some i -> exists x, l !! i = Some x /\ p x = true.
Proof.
  revert i. induction l as [|a l IH]; intros i; simpl; [done|].
  destruct (p a) eqn:E.
  - intros [= <-]. eauto.
  - destruct (first_index p l) as [k|]; simpl; [|done].
    intros [= <-]. by apply IH.
Qed.

Lemma lookup_move (ts : list Task) j t q j' t' :
  ts !! j = Some t -> <[j := move t q]> ts !! j' = Some t' ->
  (j' = j /\ t' = move t q) \/ (j' <> j /\ ts !! j' = Some t').
Proof.
  intros Hj Hj'. destruct (decide (j = j')) as [<-|Hne].
  - rewrite list_lookup_insert_eq in Hj' by by eapply lookup_lt_Some.
    left. by injection Hj' as <-.
  - rewrite list_lookup_insert_ne in Hj' by done. right. done.
Qed.

Lemma phase_not_Idle p x : phase p x -> status x <> Idle.
Proof. unfold phase, isDone. destruct p, (status x); congruence. Qed.

(** A goroutine moves on and leaves its step as it is. *)
Lemma linked_move st ts j t q :
  linked st ts -> ts !! j = Some t ->
  (forall x, phase (at_ t) x -> phase q x) ->
  linked st (<[j := move t q]> ts).
Proof.
  intros [Hph Huniq] Hj Hq. split.
  - intros j' t' Hj'.
    destruct (lookup_move _ _ _ _ _ _ Hj Hj') as [[-> ->]|[Hne Hl]].
    + destruct (Hph j t Hj) as (x & Hx & Hp). exists x. split; [done|].
      by apply Hq.
    + by apply (Hph j').
  - intros j1 j2 t1 t2 H1 H2 He.
    destruct (lookup_move _ _ _ _ _ _ Hj H1) as [[-> ->]|[Hn1 Hl1]];
      destruct (lookup_move _ _ _ _ _ _ Hj H2) as [[-> ->]|[Hn2 Hl2]];
      try done; simpl in *.
    + by apply (Huniq j j2 t t2).
    + by apply (Huniq j1 j t1 t).
    + by apply (Huniq j1 j2 t1 t2).
Qed.

(** A goroutine moves on and sets the status of its step. *)
Lemma linked_move_status st ts j t q v :
  linked st ts -> ts !! j = Some t ->
  (forall x, phase q (with_status v x)) ->
  linked (alter (with_status v) (toRun t) st) (<[j := move t q]> ts).
Proof.
  intros [Hph Huniq] Hj Hq. split.
  - intros j' t' Hj'.
    destruct (lookup_move _ _ _ _ _ _ Hj Hj') as [[-> ->]|[Hne Hl]].
    + destruct (Hph j t Hj) as (x & Hx & Hp). exists (with_status v x).
      simpl. rewrite list_lookup_alter_eq, Hx. done.
    + destruct (Hph j' t' Hl) as (x & Hx & Hp). exists x. split; [|done].
      rewrite list_lookup_alter_ne; [done|].
      intros He. apply Hne. by apply (Huniq j' j t' t).
  - intros j1 j2 t1 t2 H1 H2 He.
    destruct (lookup_move _ _ _ _ _ _ Hj H1) as [[-> ->]|[Hn1 Hl1]];
      destruct (lookup_move _ _ _ _ _ _ Hj H2) as [[-> ->]|[Hn2 Hl2]];
      try done; simpl in *.
    + by apply (Huniq j j2 t t2).
    + by apply (Huniq j1 j t1 t).
    + by apply (Huniq j1 j2 t1 t2).
Qed.

Lemma main_ok_move p st ts j t q :
  main_ok p st ts -> ts !! j = Some t ->
  main_ok p st (<[j := move t q]> ts).
Proof.
  intros H Hj. destruct p as [| | |i|i| |r]; simpl in *; try done.
  - destruct H as [Hx Hno]. split; [done|]. intros j' t' Hj'.
    destruct (lookup_move _ _ _ _ _ _ Hj Hj') as [[-> ->]|[Hne Hl]];
      simpl; eauto.
  - destruct H as [Hx Hno]. split; [done|]. intros j' t' Hj'.
    destruct (lookup_move _ _ _ _ _ _ Hj Hj') as [[-> ->]|[Hne Hl]];
      simpl; eauto.
Qed.

Lemma main_ok_move_status p st ts j t q v :
  main_ok p st ts -> linked st ts -> ts !! j = Some t ->
  at_ t = TRun \/ at_ t = TProcess ->
  main_ok p (alter (with_status v) (toRun t) st) (<[j := move t q]> ts).
Proof.
  intros H [Hph _] Hj Hat.
  assert (main_ok p (alter (with_status v) (toRun t) st) ts) as H'.
  { destruct p as [| | |i|i| |r]; simpl in *; try done.
    - destruct H as [(x & Hx & Hs) Hno]. split; [|done]. exists x.
      rewrite list_lookup_alter_ne; [done|]. by apply (Hno j).
    - destruct H as [(x & Hx & Hs) Hno]. split; [|done]. exists x.
      rewrite list_lookup_alter_ne; [done|]. by apply (Hno j).
    - destruct (Hph j t Hj) as (x & Hx & Hp).
      pose proof (allDone_lookup _ _ _ H Hx) as Hd.
      unfold phase, isDone in *.
      destruct Hat as [Hat|Hat]; rewrite Hat in Hp; rewrite Hp in Hd; done. }
  by apply main_ok_move.
Qed.

Lemma registered_move ts j t q :
  ts !! j = Some t ->
  (Z.of_nat (length (filter registered (<[j := move t q]> ts))) =
   Z.of_nat (length (filter registered ts))
   - (if registered t then 1 else 0)
   + (if registered (move t q) then 1 else 0))%Z.
Proof.
  intros Hj. pose proof (count_insert registered ts j t (move t q) Hj).
  destruct (registered t), (registered (move t q)); lia.
Qed.

Lemma main_step_joined s s' :
  joined s -> main_step s = Some s' -> joined s'.
Proof.
  destruct s as [st sp g jn cx p ts].
  unfold joined, main_step. simpl. intros (Hjn & Hl & Hm) Hstep.
  destruct p as [| | |idx|idx| |r]; simpl in *.
  - destruct sp; simplify_eq/=; done.
  - destruct (allDone st) eqn:E; simplify_eq/=; done.
  - unfold nextToRun in Hstep.
    destruct (first_index (shouldRun st) st) as [idx|] eqn:E;
      simplify_eq/=; [|done].
    apply first_index_Some in E as (x & Hx & Hrun).
    assert (status x = Idle) as Hidle.
    { unfold shouldRun in Hrun. apply andb_true_iff in Hrun as [Hi _].
      by apply bool_decide_eq_true in Hi. }
    assert (forall j t, ts !! j = Some t -> toRun t <> idx) as Hno.
    { intros j t Hj He. destruct Hl as [Hph _].
      destruct (Hph j t Hj) as (y & Hy & Hp). rewrite He, Hx in Hy.
      injection Hy as <-. by apply phase_not_Idle in Hp. }
    split; [done|]. split.
    + destruct Hl as [Hph Huniq]. split; [|done].
      intros j t Hj. destruct (Hph j t Hj) as (y & Hy & Hp).
      exists y. split; [|done].
      rewrite list_lookup_alter_ne; [done|]. intros He.
      by apply (Hno j t).
    + split; [|done]. exists (MarkAsPending x).
      rewrite list_lookup_alter_eq, Hx. done.
  - destruct (acquire g); simplify_eq/=. done.
  - simplify_eq/=. destruct Hm as [(x & Hx & Hs) Hno].
    split; [|split; [|done]].
    + rewrite filter_app, length_app. simpl. lia.
    + destruct Hl as [Hph Huniq].
      assert (forall j t, (ts ++ [{| toRun := idx; at_ := TAdd |}]) !! j = Some t ->
                (ts !! j = Some t) \/
                (j = length ts /\ t = {| toRun := idx; at_ := TAdd |})) as Hcase.
      { intros j t Hj. apply lookup_app_Some in Hj as [Hj|[Hge Hj]];
          [by left|right].
        apply list_lookup_singleton_Some in Hj as [Hz <-]. split; [lia|done]. }
      split.
      * intros j t Hj. destruct (Hcase j t Hj) as [Hj'|[-> ->]].
        -- by apply (Hph j).
        -- exists x. done.
      * intros j1 j2 t1 t2 H1 H2 He.
        destruct (Hcase j1 t1 H1) as [H1'|[-> ->]];
          destruct (Hcase j2 t2 H2) as [H2'|[-> ->]]; simpl in *.
        -- by apply (Huniq j1 j2 t1 t2).
        -- by destruct (Hno j1 t1 H1').
        -- by destruct (Hno j2 t2 H2').
        -- done.
  - destruct (decide (jn = 0)%Z); simplify_eq/=; done.
  - done.
Qed.

Lemma task_step_joined j s s' :
  joined s -> task_step j s = Some s' -> joined s'.
Proof.
  destruct s as [st sp g jn cx p ts].
  unfold joined, task_step, set_task, Run_begins. simpl. intros (Hjn & Hl & Hm) Hstep.
  destruct (ts !! j) as [t|] eqn:Hj; [|done].
  destruct (at_ t) eqn:Hat; try destruct (not_nil err);
    simplify_eq/=;
    (split; [rewrite (registered_move ts j t _ Hj);
             unfold registered; simpl; rewrite Hat; lia|]).
  - split; [apply linked_move; try done; by rewrite Hat
           |by apply main_ok_move].
  - split; [by apply linked_move_status
           |apply main_ok_move_status; auto].
  - split; [apply linked_move; try done; by rewrite Hat
           |by apply main_ok_move].
  - split; [apply linked_move; try done; by rewrite Hat
           |by apply main_ok_move].
  - split; [apply linked_move; try done; by rewrite Hat
           |by apply main_ok_move].
  - split; [apply linked_move; try done; by rewrite Hat
           |by apply main_ok_move].
Qed.

Lemma task_exit_joined j ok err s s' :
  joined s -> task_exit j ok err s = Some s' -> joined s'.
Proof.
  destruct s as [st sp g jn cx p ts].
  unfold joined, task_exit, set_task, Run_ends. simpl. intros (Hjn & Hl & Hm) Hstep.
  destruct (ts !! j) as [t|] eqn:Hj; [|done].
  destruct (at_ t) eqn:Hat; simplify_eq/=.
  split; [rewrite (registered_move ts j t _ Hj);
          unfold registered; simpl; rewrite Hat; lia|].
  split; [apply linked_move_status; try done; by destruct ok
         |apply main_ok_move_status; auto].
Qed.

Lemma step_joined l s s' : joined s -> step l s = Some s' -> joined s'.
Proof.
  destruct l as [| |j|j ok err|e]; simpl.
  - apply main_step_joined.
  - unfold acquire_fails, joined. destruct s as [st sp g jn cx p ts]; simpl.
    intros H Hs. destruct p, cx; simplify_eq/=. destruct H as (? & ? & ?).
    done.
  - apply task_step_joined.
  - apply task_exit_joined.
  - unfold cancel, joined. destruct s as [st sp g jn cx p ts]; simpl.
    intros H Hs. destruct cx; simplify_eq/=; done.
Qed.

Lemma enter_joined w : joined (enter w).
Proof.
  unfold joined, enter, linked. simpl. repeat split; try done.
Qed.

(** On normal completion the barrier holds: when the loop has left
    through [allDone] and [joiner.Wait()] lets it return, every
    goroutine it started has finished. *)
Lemma Run_waits_on_normal_completion (w : Workflow) (ls : list Label)
  (s s' : State) :
  exec ls (enter w) = Some s ->
  pc s = AtJoin ->
  main_step s = Some s' ->
  pc s' = Returned nil /\
  Forall (fun t => at_ t = TExit) (tasks s') /\
  allDone (steps s') = true.
Proof.
  intros Hexec Hpc Hstep.
  assert (joined s) as (Hjn & [Hph _] & Hm).
  { eapply (exec_invariant joined); [|apply enter_joined|exact Hexec].
    intros l s1 s2. apply step_joined. }
  unfold main_step in Hstep. rewrite Hpc in *. simpl in Hm.
  destruct (decide (joiner s = 0)%Z) as [Hz|]; [|done].
  injection Hstep as <-. simpl. split; [done|]. split; [|done].
  apply Forall_forall. intros t Ht.
  assert (registered t = false) as Hr.
  { destruct (registered t) eqn:E; [|done].
    assert (t ∈ filter registered (tasks s)) as Hin.
    { apply list_elem_of_filter. split; [by rewrite E|done]. }
    destruct (filter registered (tasks s)); [by apply elem_of_nil in Hin|].
    simpl in Hjn. lia. }
  apply list_elem_of_lookup in Ht as [j Hj].
  destruct (Hph j t Hj) as (x & Hx & Hp).
  pose proof (allDone_lookup _ _ _ Hm Hx) as Hd.
  unfold registered in Hr. unfold phase, isDone in *.
  destruct (at_ t); try done. rewrite Hp in Hd. done.
Qed.

Lemma Run_bounds_running_steps_witness :
  (Z.of_nat (running (final two_of_three
      (loaded (with_concurrency 2) (independent ["a"; "b"; "c"])))) <= 2)%Z /\
  (0 <= cur (gate (final two_of_three
      (loaded (with_concurrency 2) (independent ["a"; "b"; "c"])))) <= 2)%Z /\
  size (gate (final two_of_three
      (loaded (with_concurrency 2) (independent ["a"; "b"; "c"])))) = 2%Z.
Proof.
  apply (Run_bounds_running_steps (with_concurrency 2)
           (inr (independent ["a"; "b"; "c"]))
           (loaded (with_concurrency 2) (independent ["a"; "b"; "c"]))
           two_of_three).
  - vm_compute. discriminate.
  - vm_compute. reflexivity.
  - vm_compute. reflexivity.
Defined.

End SchedulerFacts.

(* ================================================================== *)
(** * More on the process runner *)
(* ================================================================== *)

Section SpinnerMore.
Import Go Spinner SpinnerExamples.

(** All the runs, by the answers of the process. *)
Ltac run_cases p :=
  let st := fresh "st" in
  let wt := fresh "wt" in
  let cx := fresh "cx" in
  destruct p as [st wt cx];
  unfold emits, kinds, events, returned, Run, finish; simpl;
  destruct st as [?|]; [|destruct wt as [[[?|]| | |?]|]]; simpl;
  try (destruct (decide (cx = Some DeadlineExceeded)) as [->|?]); simpl.

Ltac kind_in :=
  match goal with
  | |- ?P => apply (bool_decide_unpack P); vm_compute; exact I
  end.

Lemma Run_extends_log (s : Spinner) (p : Process) (log : list Event) :
  Run s p log = (returned s p, log ++ events s p).
Proof.
  unfold bind, push, ret. run_cases p;
    unfold bind, push, ret; simpl; rewrite <- ?app_assoc; reflexivity.
Qed.


(** X2.  Every run starts with RunRequested, followed by RunError when
    the launch failed and by RunStarted when it succeeded; after a
    failed launch nothing more is emitted, otherwise one or two more
    events follow; and every event names the spinner as its source. *)
Theorem Run_starts_with_request (s : Spinner) (p : Process) :
  exists rest,
    events s p =
      NewEvent s EventRunRequested PNil ::
      NewEvent s (match Start p with
                  | Some _ => EventRunError
                  | None => EventRunStarted
                  end) PNil :: rest /\
    (match Start p with
     | Some _ => rest = []
     | None => (1 <= length rest <= 2)%nat
     end) /\
    Forall (fun e => Source e = uuid s) (events s p).
Proof.
  unfold bind, push, ret. run_cases p; unfold bind, push, ret; simpl;
    eexists; (split; [reflexivity|]); (split; [simpl; try done; lia|]);
    repeat constructor.
Qed.

(** X3.  [Run] returns nil exactly when RunSuccess is its last event,
    and otherwise RunSuccess is not emitted at all. *)
Theorem Run_nil_iff_success (s : Spinner) (p : Process) :
  (returned s p = nil <-> last (kinds s p) = Some EventRunSuccess) /\
  (returned s p = nil <-> emits EventRunSuccess s p).
Proof.
  unfold bind, push, ret. run_cases p; unfold bind, push, ret; simpl;
    (split; split; intros H; try done; try discriminate H;
     try kind_in;
     try (exfalso; revert H; apply (bool_decide_unpack _); vm_compute;
          exact I)).
Qed.

(** A membership in a list of kinds that evaluation refutes. *)
Ltac kind_out H :=
  exfalso; revert H;
  match goal with
  | |- ?P -> False => apply (bool_decide_unpack (~ P)); vm_compute; exact I
  end.

(** X4.  A RunFail event is emitted only when the wait returned an exit
    error that carries a wait status, and its payload is that raw wait
    status (256 for exit code 1), as the third event of the run. *)
Theorem RunFail_carries_wait_status (s : Spinner) (p : Process) :
  (forall e, e ∈ events s p -> Kind e = EventRunFail ->
     exists w, Start p = None /\ Wait p = Some (ExitError (Some w)) /\
               e = NewEvent s EventRunFail (PStatus w)) /\
  (forall w, Start p = None -> Wait p = Some (ExitError (Some w)) ->
     events s p !! 2%nat = Some (NewEvent s EventRunFail (PStatus w))).
Proof.
  unfold bind, push, ret. run_cases p; unfold bind, push, ret; simpl;
    (split;
     [intros ev He Hk;
      repeat (apply elem_of_cons in He as [->|He]; [try discriminate Hk|]);
      try (by apply elem_of_nil in He); eauto
     |intros w' Hs Hw; try discriminate Hs; try discriminate Hw;
      by injection Hw as ->]).
Qed.

(** X5.  The closing kinds exclude each other except after RunFail:
    RunTimeout and RunSuccess are never both emitted; RunWaitError
    excludes RunFail, RunTimeout and RunSuccess; RunError excludes
    every other kind but RunRequested.  With RunTimeout [Run] returns
    the deadline error, with RunWaitError the nil exit-error pointer. *)
Theorem Run_closing_kinds (s : Spinner) (p : Process) :
  (emits EventRunTimeout s p ->
     returned s p = Err DeadlineExceeded /\ ~ emits EventRunSuccess s p) /\
  (emits EventRunWaitError s p ->
     returned s p = nilExitError /\ ~ emits EventRunFail s p /\
     ~ emits EventRunTimeout s p /\ ~ emits EventRunSuccess s p) /\
  (emits EventRunError s p ->
     kinds s p = [EventRunRequested; EventRunError] /\
     exists e, Start p = Some e /\ returned s p = Err e).
Proof.
  unfold bind, push, ret. run_cases p; unfold bind, push, ret; simpl;
    (split; [|split]); intros H; try (kind_out H);
    repeat split; try done; try kind_in; eauto.
Qed.

End SpinnerMore.

(* ================================================================== *)
(** * More on [NewSpinner] *)
(* ================================================================== *)

Section NewSpinnerMore.
Import Go Spinner SpinnerExamples.

Lemma genSplit_length sep n s :
  n = Count sep s -> length (genSplit sep n s) = S n.
Proof.
  revert s. induction n as [|n IH]; intros s Hn; simpl; [done|].
  destruct (cut sep s) as [[h t]|] eqn:E.
  - simpl. f_equal. apply IH. apply cut_some_count in E. lia.
  - apply cut_none_count in E. lia.
Qed.

(** X6.  The spinner [NewSpinner] returns loses nothing of the command:
    the executable and the arguments joined by single spaces are the
    command again, neither holds a space, and there are as many
    arguments as the command has spaces.  The uuid and the options are
    the ones given. *)
Theorem NewSpinner_round_trip (id command : string) (o : Options)
  (sp : Spinner) :
  NewSpinner id command o = Ok sp ->
  Join (cmd sp :: args sp) space = command /\
  has_byte space (cmd sp) = false /\
  Forall (fun a => has_byte space a = false) (args sp) /\
  length (args sp) = Count space command /\
  uuid sp = id /\ options sp = o.
Proof.
  unfold NewSpinner. destruct (Sink o); [|done].
  destruct (NotificationManager_ o); [|done].
  destruct (decide (length (Split command space) < 1)%nat); [done|].
  intros [= <-]. simpl.
  destruct (Split_spec space command) as [Hj Hf].
  pose proof (genSplit_length space (Count space command) command eq_refl)
    as Hl. fold (Split command space) in Hl.
  destruct (Split command space) as [|c a]; [simpl in Hl; lia|].
  simpl in *. apply Forall_cons in Hf as [Hc Ha].
  repeat split; try done. lia.
Qed.

Lemma NewSpinner_round_trip_witness :
  Join ["go"; "test"; ""; "./..."] space = "go test  ./..." /\
  has_byte space "go" = false /\
  Forall (fun a => has_byte space a = false) ["test"; ""; "./..."] /\
  length ["test"; ""; "./..."] = Count space "go test  ./..." /\
  "id" = "id" /\ valid_options = valid_options.
Proof.
  apply (NewSpinner_round_trip "id" "go test  ./..." valid_options
           {| uuid := "id"; options := valid_options;
              cmd := "go"; args := ["test"; ""; "./..."] |}).
  reflexivity.
Defined.

(** X7.  For all options and commands [NewSpinner] either panics or
    returns a spinner, never an error: it panics with "no sink" when the
    sink is nil, whatever the notification manager is, with "no
    notification manager" when only that is nil, and returns a spinner
    when both are set. *)
Theorem NewSpinner_panics_or_returns (id command : string) (o : Options) :
  (forall msg, NewSpinner id command o <> Fail msg) /\
  (Sink o = None -> NewSpinner id command o = Panic "no sink") /\
  (Sink o <> None -> NotificationManager_ o = None ->
     NewSpinner id command o = Panic "no notification manager") /\
  (Sink o <> None -> NotificationManager_ o <> None ->
     exists sp, NewSpinner id command o = Ok sp).
Proof.
  pose proof (Split_nonempty space command) as Hl.
  unfold NewSpinner. destruct (Sink o), (NotificationManager_ o);
    try destruct (decide (length (Split command space) < 1)%nat);
    try lia; repeat split; try done; eauto.
Qed.

End NewSpinnerMore.

(* ================================================================== *)
(** * More on loading a workflow *)
(* ================================================================== *)

Section LoadMore.
Import Go Workflow WorkflowExamples.

Lemma findStepByName_Some (l : list Step) (n : string) (i : nat) :
  findStepByName l n = Some i ->
  (exists x, l !! i = Some x /\ Name x = n) /\
  (forall j y, (j < i)%nat -> l !! j = Some y -> Name y <> n).
Proof.
  revert i. induction l as [|s r IH]; intros i; simpl; [done|].
  destruct (decide (Name s = n)) as [E|E].
  - intros [= <-]. split; [by exists s|]. intros j y Hj. lia.
  - destruct (findStepByName r n) as [k|]; simpl; [|done].
    intros [= <-]. destruct (IH k eq_refl) as [Hx Hfirst].
    split; [done|]. intros [|j] y Hj Hy; simpl in *.
    + by injection Hy as <-.
    + apply (Hfirst j y); [lia|done].
Qed.

(** X8.  [findStepByName] finds the first step with the name: it
    returns the index [i] exactly when step [i] has the name and no
    step before it has. *)
Theorem findStepByName_first (l : list Step) (n : string) (i : nat) :
  findStepByName l n = Some i <->
  (exists x, l !! i = Some x /\ Name x = n) /\
  (forall j y, (j < i)%nat -> l !! j = Some y -> Name y <> n).
Proof.
  split; [apply findStepByName_Some|].
  intros [(x & Hx & Hn) Hfirst].
  destruct (findStepByName l n) as [k|] eqn:Hk.
  - destruct (findStepByName_Some l n k Hk) as [(y & Hy & Hyn) Hbefore].
    f_equal. destruct (Nat.lt_trichotomy k i) as [Hlt|[->|Hlt]]; [|done|].
    + by destruct (Hfirst k y Hlt Hy).
    + by destruct (Hbefore i x Hlt Hx).
  - apply findStepByName_None in Hk. rewrite Forall_forall in Hk.
    destruct (Hk x); [by eapply list_elem_of_lookup_2|done].
Qed.

Lemma findStepByName_names (l l' : list Step) (n : string) :
  Name <$> l = Name <$> l' -> findStepByName l n = findStepByName l' n.
Proof.
  revert l'. induction l as [|s r IH]; intros [|s' r']; simpl; try done.
  intros [= Hn Hr]. rewrite Hn. destruct (decide (Name s' = n)); [done|].
  by rewrite (IH r').
Qed.

Lemma link_inr all step names acc ds :
  link all step names acc = inr ds ->
  exists ks, ds = acc ++ ks /\
    Forall2 (fun n k => findStepByName all n = Some k) names ks.
Proof.
  revert acc. induction names as [|n r IH]; intros acc; simpl.
  - intros [= <-]. exists []. by rewrite app_nil_r.
  - destruct (findStepByName all n) as [k|] eqn:E; [|done].
    intros H. apply IH in H as (ks & -> & Hks). exists (k :: ks).
    rewrite <- app_assoc. split; [done|]. by constructor.
Qed.

Lemma link_all_inr all todo r :
  link_all all todo = inr r -> Forall2 (linked_step all) todo r.
Proof.
  revert r. induction todo as [|s todo IH]; intros r; simpl.
  - intros [= <-]. constructor.
  - destruct (link all (Name s) (DependsOn s) (dependsOn s)) as [|ds] eqn:E;
      [done|].
    destruct (link_all all todo) as [|r']; [done|].
    intros [= <-]. constructor; [|by apply IH].
    apply link_inr in E as (ks & -> & Hks).
    unfold linked_step. simpl. repeat split; try done. by exists ks.
Qed.

Lemma linked_steps_fields all todo r :
  Forall2 (linked_step all) todo r ->
  Name <$> r = Name <$> todo /\ Command <$> r = Command <$> todo /\
  DependsOn <$> r = DependsOn <$> todo /\ status <$> r = status <$> todo.
Proof.
  induction 1 as [|s s' todo r (Hn & Hc & Hd & Hs & _) _ (IH1 & IH2 & IH3 & IH4)];
    [done|].
  rewrite !fmap_cons, Hn, Hc, Hd, Hs, IH1, IH2, IH3, IH4. done.
Qed.

Lemma Loaded_linked opts parsed w :
  LoadWorkflowFromBytes (Some opts) parsed = Loaded w ->
  exists d, parsed = inr d /\ doc_version d = "1" /\
    Notifier opts <> None /\
    Forall2 (linked_step (Steps (decode d))) (Steps (decode d)) (Steps w) /\
    Version w = "1" /\ Metadata w = doc_metadata d /\
    options w = Some opts /\ stopFlag w = false /\
    gatekeeper w = {| size := Concurrency opts; cur := 0 |}.
Proof.
  unfold LoadWorkflowFromBytes. destruct parsed as [e|d]; [done|].
  destruct (Notifier opts) eqn:En; [|done].
  destruct (decide (Version (decode d) <> "1")) as [|Hv]; [done|].
  destruct (link_all (Steps (decode d)) (Steps (decode d))) as [|r] eqn:E;
    [done|].
  intros [= <-]. exists d. simpl in *.
  assert (doc_version d = "1") as Hv'.
  { destruct (decide (doc_version d = "1")); [done|]. by destruct Hv. }
  repeat split; try done. by apply link_all_inr.
Qed.

(** X9.  A loaded workflow is the document: version "1", the metadata,
    and the steps in document order with their names, commands and
    dependency names, every step Idle; it keeps the options given, its
    stop flag is down, and its semaphore has the configured concurrency
    as capacity and nothing taken. *)
Theorem Loaded_keeps_document (opts : WorkflowOptions)
  (parsed : errval + Document) (w : Workflow) :
  LoadWorkflowFromBytes (Some opts) parsed = Loaded w ->
  exists d, parsed = inr d /\
    Version w = "1" /\ doc_version d = "1" /\
    Metadata w = doc_metadata d /\
    Name <$> Steps w = doc_name <$> doc_steps d /\
    Command <$> Steps w = doc_command <$> doc_steps d /\
    DependsOn <$> Steps w = doc_depends_on <$> doc_steps d /\
    Forall (fun s => status s = Idle) (Steps w) /\
    options w = Some opts /\ stopFlag w = false /\
    gatekeeper w = {| size := Concurrency opts; cur := 0 |}.
Proof.
  intros H. pose proof (Loaded_fresh _ _ _ H) as (_ & _ & _ & _ & Hidle).
  apply Loaded_linked in H
    as (d & -> & Hv & _ & Hl & Hw & Hm & Ho & Hs & Hg).
  apply linked_steps_fields in Hl as (Hn & Hc & Hd & _).
  exists d. simpl in *. rewrite <- !list_fmap_compose in *.
  repeat split; done.
Qed.

Lemma Loaded_keeps_document_witness :
  exists d, @inr errval Document (independent ["a"; "b"]) = inr d /\
    Version (loaded (with_concurrency 2) (independent ["a"; "b"])) = "1" /\
    doc_version d = "1" /\
    Metadata (loaded (with_concurrency 2) (independent ["a"; "b"])) =
      doc_metadata d /\
    Name <$> Steps (loaded (with_concurrency 2) (independent ["a"; "b"])) =
      doc_name <$> doc_steps d /\
    Command <$> Steps (loaded (with_concurrency 2) (independent ["a"; "b"])) =
      doc_command <$> doc_steps d /\
    DependsOn <$> Steps (loaded (with_concurrency 2) (independent ["a"; "b"])) =
      doc_depends_on <$> doc_steps d /\
    Forall (fun s => status s = Idle)
      (Steps (loaded (with_concurrency 2) (independent ["a"; "b"]))) /\
    options (loaded (with_concurrency 2) (independent ["a"; "b"])) =
      Some (with_concurrency 2) /\
    stopFlag (loaded (with_concurrency 2) (independent ["a"; "b"])) = false /\
    gatekeeper (loaded (with_concurrency 2) (independent ["a"; "b"])) =
      {| size := Concurrency (with_concurrency 2); cur := 0 |}.
Proof.
  apply (Loaded_keeps_document (with_concurrency 2)
           (inr (independent ["a"; "b"]))).
  vm_compute. reflexivity.
Defined.

Lemma Loaded_resolves_dependencies_aux all (l : list Step) (w : list Step) :
  Forall2 (linked_step all) l w ->
  Forall (fun s => dependsOn s = []) l ->
  forall i x, w !! i = Some x ->
    Forall2 (fun n k => findStepByName all n = Some k)
      (DependsOn x) (dependsOn x).
Proof.
  intros Hl Hnil i x Hx.
  destruct (Forall2_lookup_r _ _ _ _ _ Hl Hx)
    as (s & Hs & _ & _ & Hd & _ & ks & Hks & Hf).
  rewrite Forall_forall in Hnil.
  rewrite (Hnil s) in Hks by by eapply list_elem_of_lookup_2.
  simpl in Hks. rewrite Hks, Hd. done.
Qed.

(** X10.  In a loaded workflow every step has one resolved dependency
    for each dependency name, in the same order, and each is the first
    step that has that name. *)
Theorem Loaded_resolves_dependencies (opts : WorkflowOptions)
  (parsed : errval + Document) (w : Workflow) (i : nat) (x : Step) :
  LoadWorkflowFromBytes (Some opts) parsed = Loaded w ->
  Steps w !! i = Some x ->
  Forall2 (fun n k =>
             findStepByName (Steps w) n = Some k /\
             (exists y, Steps w !! k = Some y /\ Name y = n) /\
             (forall j y, (j < k)%nat -> Steps w !! j = Some y -> Name y <> n))
    (DependsOn x) (dependsOn x).
Proof.
  intros H Hx.
  apply Loaded_linked in H as (d & -> & _ & _ & Hl & _).
  pose proof (Loaded_resolves_dependencies_aux _ _ _ Hl) as Haux.
  assert (Forall (fun s => dependsOn s = []) (Steps (decode d))) as Hnil.
  { simpl. apply Forall_forall. intros s Hs.
    apply list_elem_of_fmap in Hs as (s0 & -> & _). done. }
  specialize (Haux Hnil i x Hx).
  apply linked_steps_fields in Hl as (Hn & _).
  eapply Forall2_impl; [exact Haux|]. intros n k Hk. simpl in Hk.
  rewrite (findStepByName_names _ (Steps w)) in Hk by done.
  split; [done|]. by apply findStepByName_Some.
Qed.

Lemma Loaded_resolves_dependencies_witness :
  Forall2 (fun n k =>
             findStepByName
               (Steps (loaded (with_concurrency 1) duplicate_names)) n =
               Some k /\
             (exists y, Steps (loaded (with_concurrency 1) duplicate_names)
                          !! k = Some y /\ Name y = n) /\
             (forall j y, (j < k)%nat ->
                Steps (loaded (with_concurrency 1) duplicate_names) !! j =
                  Some y -> Name y <> n))
    ["a"] [0%nat].
Proof.
  apply (Loaded_resolves_dependencies (with_concurrency 1)
           (inr duplicate_names)
           (loaded (with_concurrency 1) duplicate_names) 2
           {| Name := "b"; Command := "make"; DependsOn := ["a"];
              dependsOn := [0%nat]; status := Idle |}).
  - vm_compute. reflexivity.
  - vm_compute. reflexivity.
Defined.

Lemma not_dangling_resolved d :
  ~ dangling d ->
  forall e, link_all (Steps (decode d)) (Steps (decode d)) <> inl e.
Proof.
  intros Hd e He.
  pose proof (link_all_spec (Steps (decode d)) (Steps (decode d))) as Hl.
  rewrite He in Hl. apply Hd, dangling_decode.
  destruct Hl as (s & dep & Hs & Hin & Hnone & _). eauto.
Qed.

Lemma dangling_rejected d :
  dangling d ->
  forall r, link_all (Steps (decode d)) (Steps (decode d)) <> inr r.
Proof.
  intros Hd r Hr.
  pose proof (link_all_spec (Steps (decode d)) (Steps (decode d))) as Hl.
  rewrite Hr in Hl. apply dangling_decode in Hd as (s & dep & Hs & Hin & Hn).
  rewrite Forall_forall in Hl. specialize (Hl s Hs).
  rewrite Forall_forall in Hl. specialize (Hl dep Hin).
  rewrite Hn in Hl. by destruct Hl.
Qed.

(** X11.  Loading from a reader gives a workflow exactly when the read
    succeeds, the bytes parse, the options and their notifier are set,
    the version is "1" and no dependency name dangles.  A failed read
    returns its error whatever the options are, and so does a failed
    parse: the panics for missing options come after them. *)
Theorem LoadWorkflowFromReader_loads_iff {B : Type}
  (unmarshal : B -> errval + Document) (o : option WorkflowOptions)
  (reader : errval + B) :
  ((exists w, LoadWorkflowFromReader unmarshal o reader = Loaded w) <->
   (exists buff d opts,
      reader = inr buff /\ unmarshal buff = inr d /\ o = Some opts /\
      Notifier opts <> None /\ doc_version d = "1" /\ ~ dangling d)) /\
  (forall e, reader = inl e ->
     LoadWorkflowFromReader unmarshal o reader = LoadError e) /\
  (forall buff e, reader = inr buff -> unmarshal buff = inl e ->
     LoadWorkflowFromReader unmarshal o reader = LoadError e).
Proof.
  unfold LoadWorkflowFromReader, LoadWorkflowFromBytes.
  split; [|split].
  - split.
    + intros [w Hw]. destruct reader as [e|buff]; [done|].
      destruct (unmarshal buff) as [e|d] eqn:Eu; [done|].
      destruct o as [opts|]; [|done].
      destruct (Notifier opts) eqn:En; [|done].
      destruct (decide (Version (decode d) <> "1")) as [|Hv]; [done|].
      exists buff, d, opts. repeat split; try done.
      * by rewrite En.
      * simpl in Hv. destruct (decide (doc_version d = "1")); [done|].
        by destruct Hv.
      * intros Hd.
        destruct (link_all (Steps (decode d)) (Steps (decode d))) as [|r]
          eqn:E; [done|].
        by apply (dangling_rejected d Hd r).
    + intros (buff & d & opts & -> & Hu & -> & Hn & Hv & Hd).
      rewrite Hu. destruct (Notifier opts); [|done].
      destruct (decide (Version (decode d) <> "1")) as [Hv'|_];
        [by destruct Hv'|].
      destruct (link_all (Steps (decode d)) (Steps (decode d))) as [e|r]
        eqn:E; [|eauto].
      by destruct (not_dangling_resolved d Hd e).
  - by intros e ->.
  - intros buff e -> Hu. by rewrite Hu.
Qed.

Lemma resolves_find d n :
  resolves d n <-> is_Some (findStepByName (Steps (decode d)) n).
Proof.
  unfold resolves. simpl. split.
  - intros (u & Hu & Hn).
    destruct (findStepByName (decode_step <$> doc_steps d) n) eqn:E; [done|].
    apply findStepByName_None in E. rewrite Forall_forall in E.
    destruct (E (decode_step u)); [by apply list_elem_of_fmap_2|done].
  - intros [k Hk]. apply findStepByName_Some in Hk as [(x & Hx & Hn) _].
    apply list_elem_of_lookup_2, list_elem_of_fmap in Hx as (u & -> & Hu).
    by exists u.
Qed.

Lemma link_resolved all step names acc :
  Forall (fun n => is_Some (findStepByName all n)) names ->
  exists ds, link all step names acc = inr ds.
Proof.
  revert acc. induction names as [|n r IH]; intros acc Hf; simpl; [eauto|].
  apply Forall_cons in Hf as [[k Hk] Hr]. rewrite Hk. by apply IH.
Qed.

Lemma link_first_missing all step ds1 dep ds2 acc :
  Forall (fun n => is_Some (findStepByName all n)) ds1 ->
  findStepByName all dep = None ->
  link all step (ds1 ++ dep :: ds2) acc =
    inl (errorString (invalid_step_name step dep)).
Proof.
  revert acc. induction ds1 as [|n r IH]; intros acc Hf Hn; simpl.
  - by rewrite Hn.
  - apply Forall_cons in Hf as [[k Hk] Hr]. rewrite Hk. by apply IH.
Qed.

Lemma link_all_first_error all pre s post e :
  Forall (fun t => Forall (fun n => is_Some (findStepByName all n))
                     (DependsOn t)) pre ->
  link all (Name s) (DependsOn s) (dependsOn s) = inl e ->
  link_all all (pre ++ s :: post) = inl e.
Proof.
  intros Hpre He. induction pre as [|t pre IH]; simpl.
  - by rewrite He.
  - apply Forall_cons in Hpre as [Ht Hpre].
    destruct (link_resolved all (Name t) (DependsOn t) (dependsOn t) Ht)
      as [ds ->].
    by rewrite (IH Hpre).
Qed.

(** X12.  The error of the dependency check is about the first
    dangling name in document order: when every dependency name of the
    steps before [s] resolves, and so do the names before [dep] in the
    list of [s], and [dep] does not, the load returns the error naming
    [s] and [dep], whatever comes after them. *)
Theorem Load_reports_first_dangling (opts : WorkflowOptions) (d : Document)
  (pre post : list StepDoc) (s : StepDoc) (ds1 ds2 : list string)
  (dep : string) :
  Notifier opts <> None ->
  doc_version d = "1" ->
  doc_steps d = pre ++ s :: post ->
  doc_depends_on s = ds1 ++ dep :: ds2 ->
  Forall (fun t => Forall (resolves d) (doc_depends_on t)) pre ->
  Forall (resolves d) ds1 ->
  ~ resolves d dep ->
  LoadWorkflowFromBytes (Some opts) (inr d) =
    LoadError (errorString (invalid_step_name (doc_name s) dep)).
Proof.
  intros Hn Hv Hsteps Hdeps Hpre Hds1 Hdep.
  unfold LoadWorkflowFromBytes. destruct (Notifier opts); [|done].
  destruct (decide (Version (decode d) <> "1")) as [Hv'|_];
    [by destruct Hv'|].
  assert (Steps (decode d) =
          (decode_step <$> pre) ++ decode_step s :: (decode_step <$> post))
    as Hsplit.
  { simpl. by rewrite Hsteps, fmap_app. }
  rewrite Hsplit at 2.
  rewrite (link_all_first_error _ _ _ _
             (errorString (invalid_step_name (doc_name s) dep))); [done|..].
  - apply Forall_fmap. eapply Forall_impl; [exact Hpre|].
    intros t Ht. simpl. eapply Forall_impl; [exact Ht|].
    intros nm. apply resolves_find.
  - simpl. rewrite Hdeps. apply link_first_missing.
    + eapply Forall_impl; [exact Hds1|]. intros nm. apply resolves_find.
    + destruct (findStepByName (Steps (decode d)) dep) eqn:E; [|done].
      destruct Hdep. apply resolves_find. by rewrite E.
Qed.

Lemma Load_reports_first_dangling_witness :
  LoadWorkflowFromBytes (Some some_options) (inr ghost_document) =
    LoadError (errorString (invalid_step_name "build" "ghost")).
Proof.
  apply (Load_reports_first_dangling some_options ghost_document
           [ {| doc_name := "fetch"; doc_command := "git pull";
                doc_depends_on := [] |} ] []
           {| doc_name := "build"; doc_command := "make";
              doc_depends_on := ["fetch"; "ghost"] |}
           ["fetch"] []).
  - discriminate.
  - reflexivity.
  - reflexivity.
  - reflexivity.
  - repeat constructor.
  - repeat constructor.
    exists {| doc_name := "fetch"; doc_command := "git pull";
              doc_depends_on := [] |}.
    split; [apply list_elem_of_here|reflexivity].
  - intros (u & Hu & Hn).
    apply elem_of_cons in Hu as [->|Hu]; [discriminate Hn|].
    apply elem_of_cons in Hu as [->|Hu]; [discriminate Hn|].
    by apply elem_of_nil in Hu.
Defined.

End LoadMore.

(* ================================================================== *)
(** * More on the scheduler *)
(* ================================================================== *)

Section SchedulerMore.
Import Go Workflow SpinnerExamples WorkflowExamples.

Lemma first_index_spec {A} (p : A -> bool) (l : list A) :
  match first_index p l with
  | Some i =>
      (exists x, l !! i = Some x /\ p x = true) /\
      forall j y, (j < i)%nat -> l !! j = Some y -> p y = false
  | None => Forall (fun y => p y = false) l
  end.
Proof.
  induction l as [|a l IH]; simpl; [constructor|].
  destruct (p a) eqn:E.
  - split; [by exists a|]. intros j y Hj. lia.
  - destruct (first_index p l) as [k|]; simpl.
    + destruct IH as [Hx Hfirst]. split; [done|].
      intros [|j] y Hj Hy; simpl in *.
      * by injection Hy as <-.
      * apply (Hfirst j y); [lia|done].
    + by constructor.
Qed.

Lemma shouldRun_true (l : list Step) (x : Step) :
  shouldRun l x = true <->
  status x = Idle /\ dependencies_succeeded l x.
Proof.
  unfold shouldRun, dependencies_succeeded.
  rewrite andb_true_iff, bool_decide_eq_true, forallb_forall, Forall_forall.
  split; intros [Hi Hd]; (split; [done|]).
  - intros d Hin. apply list_elem_of_In in Hin. specialize (Hd d Hin).
    destruct (l !! d) as [y|]; [|done]. exists y.
    by apply bool_decide_eq_true in Hd.
  - intros d Hin. apply list_elem_of_In in Hin.
    destruct (Hd d Hin) as (y & -> & Hy). by apply bool_decide_eq_true.
Qed.

(** Claiming a step changes no step into or out of Success, so the
    other steps stay as eligible as they were. *)
Lemma shouldRun_after_claim (l : list Step) (idx : nat) (x y : Step) :
  l !! idx = Some x -> status x = Idle ->
  shouldRun (alter MarkAsPending idx l) y = shouldRun l y.
Proof.
  intros Hx Hidle. unfold shouldRun. f_equal.
  induction (dependsOn y) as [|d ds IH]; simpl; [done|].
  rewrite IH. f_equal.
  destruct (decide (idx = d)) as [<-|Hne].
  - rewrite list_lookup_alter_eq, Hx. simpl. rewrite Hidle. done.
  - by rewrite list_lookup_alter_ne.
Qed.

(** X13.  [nextToRun] claims the first step in declaration order that
    is Idle with every dependency Success: it marks that step Pending
    and changes nothing else; the claimed step is then no longer
    eligible and the other steps are as eligible as before.  When no
    step is eligible it returns none and changes nothing. *)
Theorem nextToRun_claims_first_eligible (l : list Step) :
  match nextToRun l with
  | (l', Some idx) =>
      exists x, l !! idx = Some x /\
        status x = Idle /\ dependencies_succeeded l x /\
        (forall j y, (j < idx)%nat -> l !! j = Some y ->
                     shouldRun l y = false) /\
        l' = <[idx := with_status Pending x]> l /\
        shouldRun l' (with_status Pending x) = false /\
        (forall y, shouldRun l' y = shouldRun l y)
  | (l', None) =>
      l' = l /\ Forall (fun y => shouldRun l y = false) l
  end.
Proof.
  unfold nextToRun. pose proof (first_index_spec (shouldRun l) l) as H.
  destruct (first_index (shouldRun l) l) as [idx|]; [|done].
  destruct H as [(x & Hx & Hrun) Hfirst].
  apply shouldRun_true in Hrun as [Hidle Hdeps].
  exists x. repeat split; try done.
  - apply list_eq. intros j. destruct (decide (idx = j)) as [<-|Hne].
    + rewrite list_lookup_alter_eq, Hx.
      rewrite list_lookup_insert_eq by by eapply lookup_lt_Some. done.
    + by rewrite list_lookup_alter_ne, list_lookup_insert_ne.
  - intros y. by apply (shouldRun_after_claim l idx x).
Qed.

Lemma advances_refl x : advances x x.
Proof. unfold advances. repeat split; done. Qed.

Lemma advances_trans x y z : advances x y -> advances y z -> advances x z.
Proof.
  unfold advances, isDone.
  intros (H1 & H2 & H3 & H4 & H5 & H6) (K1 & K2 & K3 & K4 & K5 & K6).
  repeat split; try congruence; [lia|].
  intros Hd. rewrite K6; [by apply H6|]. rewrite (H6 Hd). done.
Qed.

Lemma advances_same (l : list Step) : Forall2 advances l l.
Proof. induction l; constructor; [apply advances_refl|done]. Qed.

(** Setting the status of one step to one that is not behind. *)
Lemma advances_alter (l : list Step) (k : nat) (v : Status) :
  (forall x, l !! k = Some x ->
     (rank (status x) <= rank v)%nat /\ isDone x = false) ->
  Forall2 advances l (alter (with_status v) k l).
Proof.
  intros H. apply Forall2_same_length_lookup_2; [by rewrite length_alter|].
  intros i x y Hx Hy. destruct (decide (k = i)) as [<-|Hne].
  - rewrite list_lookup_alter_eq, Hx in Hy. injection Hy as <-.
    destruct (H x Hx) as [Hr Hd]. unfold advances. simpl.
    repeat split; try done. by rewrite Hd.
  - rewrite list_lookup_alter_ne, Hx in Hy by done. injection Hy as <-.
    apply advances_refl.
Qed.

Lemma step_advances l s s' :
  joined s -> step l s = Some s' -> Forall2 advances (steps s) (steps s').
Proof.
  destruct s as [st sp g jn cx p ts]. unfold joined. simpl.
  intros (_ & [Hph _] & _) Hstep.
  destruct l as [| |j|j ok err|e]; simpl in Hstep.
  - unfold main_step in Hstep. simpl in Hstep.
    destruct p as [| | |idx|idx| |r]; simpl in *.
    + destruct sp; simplify_eq/=; apply advances_same.
    + destruct (allDone st); simplify_eq/=; apply advances_same.
    + unfold nextToRun in Hstep.
      destruct (first_index (shouldRun st) st) as [idx|] eqn:E;
        simplify_eq/=; [|apply advances_same].
      apply advances_alter. intros x Hx.
      pose proof (first_index_spec (shouldRun st) st) as Hf.
      rewrite E in Hf. destruct Hf as [(x' & Hx' & Hrun) _].
      rewrite Hx in Hx'. injection Hx' as <-.
      apply shouldRun_true in Hrun as [Hidle _].
      unfold isDone. rewrite Hidle. simpl. split; [lia|done].
    + destruct (acquire g); simplify_eq/=. apply advances_same.
    + simplify_eq/=. apply advances_same.
    + destruct (decide (jn = 0)%Z); simplify_eq/=. apply advances_same.
    + done.
  - unfold acquire_fails in Hstep. simpl in Hstep.
    destruct p, cx; simplify_eq/=. apply advances_same.
  - unfold task_step, set_task, Run_begins in Hstep. simpl in Hstep.
    destruct (ts !! j) as [t|] eqn:Hj; [|done].
    destruct (Hph j t Hj) as (x0 & Hx0 & Hp).
    destruct (at_ t) eqn:Hat; try destruct (not_nil err);
      simplify_eq/=; try apply advances_same.
    apply advances_alter. intros x Hx. rewrite Hx0 in Hx.
    injection Hx as <-. unfold isDone. rewrite Hp. simpl. split; [lia|done].
  - unfold task_exit, set_task, Run_ends in Hstep. simpl in Hstep.
    destruct (ts !! j) as [t|] eqn:Hj; [|done].
    destruct (Hph j t Hj) as (x0 & Hx0 & Hp).
    destruct (at_ t) eqn:Hat; simplify_eq/=.
    apply advances_alter. intros x Hx. rewrite Hx0 in Hx.
    injection Hx as <-. unfold isDone. rewrite Hp. simpl.
    split; [destruct ok; simpl; lia|done].
  - unfold cancel in Hstep. simpl in Hstep.
    destruct cx; simplify_eq/=. apply advances_same.
Qed.

Lemma exec_joined ls s s' : joined s -> exec ls s = Some s' -> joined s'.
Proof.
  apply (exec_invariant joined). intros l s1 s2. apply step_joined.
Qed.

Lemma exec_advances ls s s' :
  joined s -> exec ls s = Some s' -> Forall2 advances (steps s) (steps s').
Proof.
  revert s. induction ls as [|l ls IH]; intros s Hj; simpl.
  - intros [= <-]. apply advances_same.
  - destruct (step l s) as [s1|] eqn:E; [|done]. intros Hexec.
    eapply Forall2_trans; [apply advances_trans| |].
    + by eapply step_advances.
    + apply IH; [by eapply step_joined|done].
Qed.

(** X14.  During [Run] a step keeps its name, command and dependencies
    and its status only moves forward along Idle, Pending, Running,
    done: between any state of an execution and any later one no status
    is behind where it was, a Success stays Success and a Failed stays
    Failed, and no step is added or removed. *)
Theorem Run_statuses_advance (w : Workflow) (ls ls' : list Label)
  (s s' : State) :
  exec ls (enter w) = Some s ->
  exec ls' s = Some s' ->
  Forall2 advances (steps s) (steps s').
Proof.
  intros H1 H2. apply (exec_advances ls'); [|done].
  eapply exec_joined; [apply enter_joined|exact H1].
Qed.

Lemma Run_statuses_advance_witness :
  Forall2 advances
    (steps (final (dispatch ++ dispatch)
              (loaded (with_concurrency 2) (independent ["a"; "b"]))))
    (steps (final stop_while_running
              (loaded (with_concurrency 2) (independent ["a"; "b"])))).
Proof.
  apply (Run_statuses_advance
           (loaded (with_concurrency 2) (independent ["a"; "b"]))
           (dispatch ++ dispatch)
           (start 0 ++ start 1 ++
            [run_exit 0 false (Err DeadlineExceeded); run_task 0; run_main])).
  - vm_compute. reflexivity.
  - vm_compute. reflexivity.
Defined.

(** The dependencies that are Success stay so when a step that is not
    Success gets a new status. *)
Lemma dependencies_alter (l : list Step) (k : nat) (v : Status)
  (xk x : Step) :
  l !! k = Some xk -> status xk <> Success ->
  dependencies_succeeded l x ->
  dependencies_succeeded (alter (with_status v) k l) x.
Proof.
  unfold dependencies_succeeded. intros Hk Hs Hd.
  eapply Forall_impl; [exact Hd|]. intros d (y & Hy & Hys). exists y.
  split; [|done]. rewrite list_lookup_alter_ne; [done|].
  intros ->. congruence.
Qed.

Lemma in_order_alter (l : list Step) (k : nat) (v : Status) (xk : Step) :
  l !! k = Some xk -> status xk <> Success ->
  (status xk = Idle -> dependencies_succeeded l xk) ->
  in_order l -> in_order (alter (with_status v) k l).
Proof.
  intros Hk Hs Hclaim Hord i x Hi Hni.
  destruct (decide (k = i)) as [<-|Hne].
  - rewrite list_lookup_alter_eq, Hk in Hi. injection Hi as <-.
    apply (dependencies_alter l k v xk (with_status v xk)); try done.
    unfold dependencies_succeeded. simpl.
    destruct (decide (status xk = Idle)) as [Hidle|Hidle];
      [by apply Hclaim|by apply (Hord k)].
  - rewrite list_lookup_alter_ne in Hi by done.
    apply (dependencies_alter l k v xk x); try done. by apply (Hord i).
Qed.

Lemma step_in_order l s s' :
  joined s -> in_order (steps s) -> step l s = Some s' ->
  in_order (steps s').
Proof.
  destruct s as [st sp g jn cx p ts]. unfold joined. simpl.
  intros (_ & [Hph _] & _) Hord Hstep.
  destruct l as [| |j|j ok err|e]; simpl in Hstep.
  - unfold main_step in Hstep. simpl in Hstep.
    destruct p as [| | |idx|idx| |r]; simpl in *.
    + destruct sp; simplify_eq/=; done.
    + destruct (allDone st); simplify_eq/=; done.
    + unfold nextToRun in Hstep.
      pose proof (first_index_spec (shouldRun st) st) as Hf.
      destruct (first_index (shouldRun st) st) as [idx|];
        simplify_eq/=; [|done].
      destruct Hf as [(x & Hx & Hrun) _].
      apply shouldRun_true in Hrun as [Hidle Hdeps].
      apply (in_order_alter st idx Pending x); try done. congruence.
    + destruct (acquire g); simplify_eq/=. done.
    + simplify_eq/=. done.
    + destruct (decide (jn = 0)%Z); simplify_eq/=. done.
    + done.
  - unfold acquire_fails in Hstep. simpl in Hstep.
    destruct p, cx; simplify_eq/=. done.
  - unfold task_step, set_task, Run_begins in Hstep. simpl in Hstep.
    destruct (ts !! j) as [t|] eqn:Hj; [|done].
    destruct (Hph j t Hj) as (x0 & Hx0 & Hp).
    destruct (at_ t) eqn:Hat; try destruct (not_nil err);
      simplify_eq/=; try done.
    apply (in_order_alter st (toRun t) Running x0); try done; congruence.
  - unfold task_exit, set_task, Run_ends in Hstep. simpl in Hstep.
    destruct (ts !! j) as [t|] eqn:Hj; [|done].
    destruct (Hph j t Hj) as (x0 & Hx0 & Hp).
    destruct (at_ t) eqn:Hat; simplify_eq/=.
    apply (in_order_alter st (toRun t) _ x0); try done; congruence.
  - unfold cancel in Hstep. simpl in Hstep.
    destruct cx; simplify_eq/=. done.
Qed.

(** X15.  In every state of every execution of [Run] on a loaded
    workflow, a step that has left Idle (it is Pending, Running,
    Success or Failed) has every resolved dependency Success: no step
    is claimed or run before its dependencies have succeeded. *)
Theorem Run_respects_dependencies (opts : WorkflowOptions)
  (parsed : errval + Document) (w : Workflow) (ls : list Label) (s : State)
  (i : nat) (x : Step) :
  LoadWorkflowFromBytes (Some opts) parsed = Loaded w ->
  exec ls (enter w) = Some s ->
  steps s !! i = Some x ->
  status x <> Idle ->
  dependencies_succeeded (steps s) x.
Proof.
  intros Hload Hexec.
  destruct (Loaded_fresh _ _ _ Hload) as (_ & _ & _ & _ & Hidle).
  assert (joined s /\ in_order (steps s)) as [_ Hord]; [|apply Hord].
  eapply (exec_invariant (fun s => joined s /\ in_order (steps s)));
    [| |exact Hexec].
  - intros l s1 s2 [Hj Ho] Hstep.
    split; [by eapply step_joined|by eapply step_in_order].
  - split; [apply enter_joined|]. intros k y Hk Hy. simpl in Hk.
    rewrite Forall_forall in Hidle. destruct Hy. apply Hidle.
    by eapply list_elem_of_lookup_2.
Qed.

Lemma Run_respects_dependencies_witness :
  dependencies_succeeded
    (steps (final a_then_b (loaded (with_concurrency 1) chain)))
    {| Name := "b"; Command := "make b"; DependsOn := ["a"];
       dependsOn := [0%nat]; status := Pending |}.
Proof.
  apply (Run_respects_dependencies (with_concurrency 1) (inr chain)
           (loaded (with_concurrency 1) chain) a_then_b
           (final a_then_b (loaded (with_concurrency 1) chain)) 1).
  - vm_compute. reflexivity.
  - vm_compute. reflexivity.
  - vm_compute. reflexivity.
  - discriminate.
Defined.

(** X16.  No step gets two goroutines: in every state of every
    execution the goroutines started have pairwise different steps,
    each an existing step, so there are never more goroutines than
    steps and no command is run twice. *)
Theorem Run_starts_each_step_once (w : Workflow) (ls : list Label)
  (s : State) :
  exec ls (enter w) = Some s ->
  NoDup (toRun <$> tasks s) /\
  Forall (fun t => (toRun t < length (steps s))%nat) (tasks s) /\
  (length (tasks s) <= length (steps s))%nat.
Proof.
  intros Hexec.
  assert (joined s) as (_ & [Hph Huniq] & _).
  { eapply exec_joined; [apply enter_joined|exact Hexec]. }
  assert (NoDup (toRun <$> tasks s)) as Hnd.
  { apply NoDup_alt. intros i j k Hi Hj.
    apply list_lookup_fmap_Some in Hi as (t1 & -> & H1).
    apply list_lookup_fmap_Some in Hj as (t2 & Ht & H2).
    by apply (Huniq i j t1 t2). }
  assert (Forall (fun t => (toRun t < length (steps s))%nat) (tasks s))
    as Hlt.
  { apply Forall_forall. intros t Ht.
    apply list_elem_of_lookup in Ht as [j Hj].
    destruct (Hph j t Hj) as (x & Hx & _). by eapply lookup_lt_Some. }
  split; [done|]. split; [done|].
  rewrite <- (length_fmap toRun), <- (length_seq (length (steps s)) 0).
  apply submseteq_length, NoDup_submseteq; [done|].
  intros k Hk. apply list_elem_of_fmap in Hk as (t & -> & Ht).
  apply elem_of_seq. rewrite Forall_forall in Hlt. specialize (Hlt t Ht).
  lia.
Qed.

Lemma Run_starts_each_step_once_witness :
  NoDup (toRun <$> tasks (final stop_while_running
           (loaded (with_concurrency 2) (independent ["a"; "b"])))) /\
  Forall (fun t => (toRun t < length (steps (final stop_while_running
           (loaded (with_concurrency 2) (independent ["a"; "b"])))))%nat)
    (tasks (final stop_while_running
           (loaded (with_concurrency 2) (independent ["a"; "b"])))) /\
  (length (tasks (final stop_while_running
           (loaded (with_concurrency 2) (independent ["a"; "b"])))) <=
   length (steps (final stop_while_running
           (loaded (with_concurrency 2) (independent ["a"; "b"])))))%nat.
Proof.
  apply (Run_starts_each_step_once
           (loaded (with_concurrency 2) (independent ["a"; "b"]))
           stop_while_running).
  vm_compute. reflexivity.
Defined.

(** X17.  The wait group counts exactly the goroutines that have
    called [Add] and not yet [Done]: its counter is never negative and
    never above the number of goroutines started. *)
Theorem Run_wait_group_counts (w : Workflow) (ls : list Label) (s : State) :
  exec ls (enter w) = Some s ->
  joiner s = Z.of_nat (length (filter registered (tasks s))) /\
  (0 <= joiner s <= Z.of_nat (length (tasks s)))%Z.
Proof.
  intros Hexec.
  assert (joined s) as (Hjn & _ & _).
  { eapply exec_joined; [apply enter_joined|exact Hexec]. }
  split; [done|]. rewrite Hjn.
  pose proof (length_filter registered (tasks s)). lia.
Qed.

Lemma Run_wait_group_counts_witness :
  joiner (final stop_while_running
            (loaded (with_concurrency 2) (independent ["a"; "b"]))) =
    Z.of_nat (length (filter registered
      (tasks (final stop_while_running
                (loaded (with_concurrency 2) (independent ["a"; "b"])))))) /\
  (0 <= joiner (final stop_while_running
                  (loaded (with_concurrency 2) (independent ["a"; "b"]))) <=
   Z.of_nat (length (tasks (final stop_while_running
                  (loaded (with_concurrency 2) (independent ["a"; "b"]))))))%Z.
Proof.
  apply (Run_wait_group_counts
           (loaded (with_concurrency 2) (independent ["a"; "b"]))
           stop_while_running).
  vm_compute. reflexivity.
Defined.

Lemma step_stop_flag l s s' :
  step l s = Some s' ->
  (stop s = true -> stop s' = true) /\
  (stop s = false -> stop s' = true ->
     exists j t err, l = run_task j /\ tasks s !! j = Some t /\
                     at_ t = TCheck err /\ not_nil err = true).
Proof.
  destruct s as [st sp g jn cx p ts]. simpl.
  destruct l as [| |j|j ok err|e]; simpl; intros Hstep.
  - unfold main_step in Hstep. simpl in Hstep.
    destruct p as [| | |idx|idx| |r]; simpl in *.
    + destruct sp; simplify_eq/=; split; congruence.
    + destruct (allDone st); simplify_eq/=; split; congruence.
    + unfold nextToRun in Hstep.
      destruct (first_index (shouldRun st) st); simplify_eq/=;
        split; congruence.
    + destruct (acquire g); simplify_eq/=; split; congruence.
    + simplify_eq/=; split; congruence.
    + destruct (decide (jn = 0)%Z); simplify_eq/=; split; congruence.
    + done.
  - unfold acquire_fails in Hstep. simpl in Hstep.
    destruct p, cx; simplify_eq/=; split; congruence.
  - unfold task_step, set_task in Hstep. simpl in Hstep.
    destruct (ts !! j) as [t|] eqn:Hj; [|done].
    destruct (at_ t) eqn:Hat; try destruct (not_nil err) eqn:Hn;
      simplify_eq/=; (split; [congruence|]); try congruence.
    intros _ _. exists j, t, err. done.
  - unfold task_exit, set_task in Hstep. simpl in Hstep.
    destruct (ts !! j) as [t|]; [|done].
    destruct (at_ t); simplify_eq/=; split; congruence.
  - unfold cancel in Hstep. simpl in Hstep.
    destruct cx; simplify_eq/=; split; congruence.
Qed.

Lemma exec_keeps_stop ls s s' :
  exec ls s = Some s' -> stop s = true -> stop s' = true.
Proof.
  revert s. induction ls as [|l ls IH]; intros s; simpl.
  - by intros [= <-].
  - destruct (step l s) as [s1|] eqn:E; [|done]. intros Hexec Hs.
    apply (IH s1); [done|]. by apply (step_stop_flag l s s1).
Qed.

Lemma step_stop_explained w ls l s s' :
  stop_explained w ls s -> step l s = Some s' ->
  stop_explained w (ls ++ [l]) s'.
Proof.
  intros [Hchk Hstop] Hstep.
  assert (forall j ok err, run_exit j ok err ∈ ls ->
            run_exit j ok err ∈ ls ++ [l]) as Hin.
  { intros j ok err H. apply elem_of_app. by left. }
  assert (stop s' = true ->
          stopFlag w = true \/
          exists j ok err, run_exit j ok err ∈ ls ++ [l] /\
                           not_nil err = true) as Hstop'.
  { intros Hs'. destruct (stop s) eqn:Hs.
    - destruct (Hstop eq_refl) as [|(j & ok & err & H & Hn)]; [by left|].
      right. exists j, ok, err. eauto.
    - destruct (proj2 (step_stop_flag l s s' Hstep) Hs Hs')
        as (j & t & err & -> & Hj & Hat & Hn).
      destruct (Hchk j t err Hj Hat) as [ok Hok].
      right. exists j, ok, err. eauto. }
  split; [|done]. clear Hstop Hstop'.
  destruct s as [st sp g jn cx p ts].
  destruct l as [| |j|j ok err|e]; simpl in *.
  - unfold main_step in Hstep. simpl in Hstep.
    destruct p as [| | |idx|idx| |r]; simpl in *.
    + destruct sp; simplify_eq/=; intros j t err Hj Hat;
        destruct (Hchk j t err Hj Hat); eauto.
    + destruct (allDone st); simplify_eq/=; intros j t err Hj Hat;
        destruct (Hchk j t err Hj Hat); eauto.
    + unfold nextToRun in Hstep.
      destruct (first_index (shouldRun st) st); simplify_eq/=;
        intros j t err Hj Hat; destruct (Hchk j t err Hj Hat); eauto.
    + destruct (acquire g); simplify_eq/=. intros j t err Hj Hat.
      destruct (Hchk j t err Hj Hat); eauto.
    + simplify_eq/=. intros j t err Hj Hat.
      apply lookup_app_Some in Hj as [Hj|[_ Hj]].
      * destruct (Hchk j t err Hj Hat); eauto.
      * apply list_lookup_singleton_Some in Hj as [_ <-]. done.
    + destruct (decide (jn = 0)%Z); simplify_eq/=. intros j t err Hj Hat.
      destruct (Hchk j t err Hj Hat); eauto.
    + done.
  - unfold acquire_fails in Hstep. simpl in Hstep.
    destruct p, cx; simplify_eq/=. intros j t err Hj Hat.
    destruct (Hchk j t err Hj Hat); eauto.
  - unfold task_step, set_task in Hstep. simpl in Hstep.
    destruct (ts !! j) as [t|] eqn:Hj; [|done].
    destruct (at_ t) eqn:Hat; try destruct (not_nil err);
      simplify_eq/=; intros j' t' err' Hj' Hat';
      (destruct (lookup_move _ _ _ _ _ _ Hj Hj') as [[-> ->]|[_ Hl]];
       [done|destruct (Hchk j' t' err' Hl Hat'); eauto]).
  - unfold task_exit, set_task in Hstep. simpl in Hstep.
    destruct (ts !! j) as [t|] eqn:Hj; [|done].
    destruct (at_ t) eqn:Hat; simplify_eq/=. intros j' t' err' Hj' Hat'.
    destruct (lookup_move _ _ _ _ _ _ Hj Hj') as [[-> ->]|[_ Hl]].
    + simpl in Hat'. injection Hat' as <-. exists ok.
      apply elem_of_app. right. apply list_elem_of_here.
    + destruct (Hchk j' t' err' Hl Hat'); eauto.
  - unfold cancel in Hstep. simpl in Hstep.
    destruct cx; simplify_eq/=. intros j t err Hj Hat.
    destruct (Hchk j t err Hj Hat); eauto.
Qed.

Lemma exec_stop_explained w ls s :
  exec ls (enter w) = Some s -> stop_explained w ls s.
Proof.
  revert s. induction ls as [|l ls IH] using rev_ind; intros s.
  - simpl. intros [= <-]. split; [done|]. simpl. by left.
  - rewrite exec_app. destruct (exec ls (enter w)) as [s0|]; [|done].
    simpl. intros Hstep. by apply (step_stop_explained w ls l s0 s); [apply IH|].
Qed.

(** X18.  The stop flag is never lowered during [Run]: once raised it
    is raised in every later state.  And nothing raises it but a
    goroutine whose step returned a non-nil error: when the flag is up,
    it was up on entry or some step of the execution returned an error
    that is not nil. *)
Theorem Run_stop_flag (w : Workflow) (ls ls' : list Label) (s s' : State) :
  exec ls (enter w) = Some s ->
  exec ls' s = Some s' ->
  (stop s = true -> stop s' = true) /\
  (stop s = true ->
     stopFlag w = true \/
     exists j ok err, run_exit j ok err ∈ ls /\ not_nil err = true).
Proof.
  intros H1 H2. split; [by apply (exec_keeps_stop ls')|].
  by apply (exec_stop_explained w ls s).
Qed.

Lemma Run_stop_flag_witness :
  (stop (final (dispatch ++ start 0 ++
                [run_exit 0 false (Err DeadlineExceeded); run_task 0])
           (loaded (with_concurrency 1) (independent ["a"; "b"]))) = true ->
   stop (final (dispatch ++ start 0 ++
                [run_exit 0 false (Err DeadlineExceeded); run_task 0] ++
                [run_task 0; run_task 0; run_main])
           (loaded (with_concurrency 1) (independent ["a"; "b"]))) = true) /\
  (stop (final (dispatch ++ start 0 ++
                [run_exit 0 false (Err DeadlineExceeded); run_task 0])
           (loaded (with_concurrency 1) (independent ["a"; "b"]))) = true ->
   stopFlag (loaded (with_concurrency 1) (independent ["a"; "b"])) = true \/
   exists j ok err,
     run_exit j ok err ∈
       dispatch ++ start 0 ++
       [run_exit 0 false (Err DeadlineExceeded); run_task 0] /\
     not_nil err = true).
Proof.
  apply (Run_stop_flag
           (loaded (with_concurrency 1) (independent ["a"; "b"]))
           (dispatch ++ start 0 ++
            [run_exit 0 false (Err DeadlineExceeded); run_task 0])
           [run_task 0; run_task 0; run_main]).
  - vm_compute. reflexivity.
  - vm_compute. reflexivity.
Defined.

(** The only changes a transition makes to the steps: none, the claim
    of an eligible Idle step by the loop, or a new status for a Pending
    or Running step by its goroutine. *)
Lemma step_changes l s s' :
  joined s -> step l s = Some s' ->
  steps s' = steps s \/
  exists k xk v,
    steps s !! k = Some xk /\
    steps s' = alter (with_status v) k (steps s) /\
    ((status xk = Idle /\ shouldRun (steps s) xk = true /\
      pc s = AtNextToRun) \/
     status xk = Pending \/ status xk = Running).
Proof.
  destruct s as [st sp g jn cx p ts]. unfold joined. simpl.
  intros (_ & [Hph _] & _) Hstep.
  destruct l as [| |j|j ok err|e]; simpl in Hstep.
  - unfold main_step in Hstep. simpl in Hstep.
    destruct p as [| | |idx|idx| |r]; simpl in *.
    + destruct sp; simplify_eq/=; by left.
    + destruct (allDone st); simplify_eq/=; by left.
    + unfold nextToRun in Hstep.
      pose proof (first_index_spec (shouldRun st) st) as Hf.
      destruct (first_index (shouldRun st) st) as [idx|];
        simplify_eq/=; [|by left].
      destruct Hf as [(x & Hx & Hrun) _]. right. exists idx, x, Pending.
      split; [done|]. split; [done|]. left.
      pose proof Hrun as Hrun'. apply shouldRun_true in Hrun' as [Hidle _].
      done.
    + destruct (acquire g); simplify_eq/=. by left.
    + simplify_eq/=. by left.
    + destruct (decide (jn = 0)%Z); simplify_eq/=. by left.
    + done.
  - unfold acquire_fails in Hstep. simpl in Hstep.
    destruct p, cx; simplify_eq/=. by left.
  - unfold task_step, set_task, Run_begins in Hstep. simpl in Hstep.
    destruct (ts !! j) as [t|] eqn:Hj; [|done].
    destruct (Hph j t Hj) as (x0 & Hx0 & Hp).
    destruct (at_ t) eqn:Hat; try destruct (not_nil err);
      simplify_eq/=; try (by left).
    right. exists (toRun t), x0, Running. auto.
  - unfold task_exit, set_task, Run_ends in Hstep. simpl in Hstep.
    destruct (ts !! j) as [t|] eqn:Hj; [|done].
    destruct (Hph j t Hj) as (x0 & Hx0 & Hp).
    destruct (at_ t) eqn:Hat; simplify_eq/=.
    right. exists (toRun t), x0, (if ok then Success else Failed). auto.
  - unfold cancel in Hstep. simpl in Hstep.
    destruct cx; simplify_eq/=. by left.
Qed.

Lemma step_after_return l s s' r :
  joined s -> pc s = Returned r -> step l s = Some s' ->
  pc s' = Returned r /\ length (tasks s') = length (tasks s) /\
  (forall i x, steps s !! i = Some x -> status x = Idle ->
               steps s' !! i = Some x).
Proof.
  intros Hj Hpc Hstep.
  assert (forall i x, steps s !! i = Some x -> status x = Idle ->
                      steps s' !! i = Some x) as Hidle.
  { intros i x Hi Hx.
    destruct (step_changes l s s' Hj Hstep)
      as [->|(k & xk & v & Hk & -> & [(_ & _ & Hp)|Hs])]; [done|congruence|].
    rewrite list_lookup_alter_ne; [done|]. intros ->.
    rewrite Hk in Hi. injection Hi as ->. destruct Hs; congruence. }
  split; [|split; [|done]].
  - destruct s as [st sp g jn cx p ts]. simpl in *. subst p.
    destruct l as [| |j|j ok err|e]; simpl in Hstep; try done.
    + unfold task_step in Hstep. simpl in Hstep.
      destruct (ts !! j) as [t|]; [|done].
      destruct (at_ t); try destruct (not_nil err); simplify_eq/=; done.
    + unfold task_exit in Hstep. simpl in Hstep.
      destruct (ts !! j) as [t|]; [|done].
      destruct (at_ t); simplify_eq/=; done.
    + unfold cancel in Hstep. simpl in Hstep.
      destruct cx; simplify_eq/=; done.
  - destruct s as [st sp g jn cx p ts]. simpl in *. subst p.
    destruct l as [| |j|j ok err|e]; simpl in Hstep; try done.
    + unfold task_step, set_task in Hstep. simpl in Hstep.
      destruct (ts !! j) as [t|]; [|done].
      destruct (at_ t); try destruct (not_nil err); simplify_eq/=;
        by rewrite length_insert.
    + unfold task_exit, set_task in Hstep. simpl in Hstep.
      destruct (ts !! j) as [t|]; [|done].
      destruct (at_ t); simplify_eq/=; by rewrite length_insert.
    + unfold cancel in Hstep. simpl in Hstep.
      destruct cx; simplify_eq/=; done.
Qed.

(** X19.  After [Run] has returned nothing is claimed or started any
    more: whatever the goroutines left behind still do, the value
    returned stays, no goroutine is added, and every step that was Idle
    when [Run] returned stays Idle, never run. *)
Theorem Run_claims_nothing_after_return (w : Workflow)
  (ls ls' : list Label) (s s' : State) (r : error) :
  exec ls (enter w) = Some s ->
  pc s = Returned r ->
  exec ls' s = Some s' ->
  pc s' = Returned r /\ length (tasks s') = length (tasks s) /\
  (forall i x, steps s !! i = Some x -> status x = Idle ->
               steps s' !! i = Some x).
Proof.
  intros Hexec Hpc.
  assert (joined s) as Hj.
  { eapply exec_joined; [apply enter_joined|exact Hexec]. }
  clear Hexec. revert s Hj Hpc.
  induction ls' as [|l ls' IH]; intros s Hj Hpc; simpl.
  - intros [= <-]. done.
  - destruct (step l s) as [s1|] eqn:E; [|done]. intros Hexec.
    destruct (step_after_return l s s1 r Hj Hpc E) as (Hpc1 & Hlen & Hidle).
    destruct (IH s1) as (Hpc' & Hlen' & Hidle');
      [by eapply step_joined|done|done|].
    split; [done|]. split; [congruence|].
    intros i x Hi Hx. apply Hidle'; [by apply Hidle|done].
Qed.

Lemma Run_claims_nothing_after_return_witness :
  pc (final (stop_while_running ++ complete 1 true nil)
        (loaded (with_concurrency 2) (independent ["a"; "b"; "c"]))) =
    Returned nil /\
  length (tasks (final (stop_while_running ++ complete 1 true nil)
        (loaded (with_concurrency 2) (independent ["a"; "b"; "c"])))) =
  length (tasks (final stop_while_running
        (loaded (with_concurrency 2) (independent ["a"; "b"; "c"])))) /\
  (forall i x,
     steps (final stop_while_running
        (loaded (with_concurrency 2) (independent ["a"; "b"; "c"]))) !! i =
       Some x ->
     status x = Idle ->
     steps (final (stop_while_running ++ complete 1 true nil)
        (loaded (with_concurrency 2) (independent ["a"; "b"; "c"]))) !! i =
       Some x).
Proof.
  apply (Run_claims_nothing_after_return
           (loaded (with_concurrency 2) (independent ["a"; "b"; "c"]))
           stop_while_running (complete 1 true nil)).
  - vm_compute. reflexivity.
  - vm_compute. reflexivity.
  - vm_compute. reflexivity.
Defined.

Lemma step_keeps_blocked l s s' i x d y :
  joined s -> step l s = Some s' ->
  steps s !! i = Some x -> status x = Idle -> d ∈ dependsOn x ->
  steps s !! d = Some y -> status y = Failed ->
  steps s' !! i = Some x /\
  exists y', steps s' !! d = Some y' /\ status y' = Failed.
Proof.
  intros Hj Hstep Hi Hx Hd Hy Hfail. split.
  - destruct (step_changes l s s' Hj Hstep)
      as [->|(k & xk & v & Hk & -> & Hs)]; [done|].
    rewrite list_lookup_alter_ne; [done|]. intros ->.
    rewrite Hk in Hi. injection Hi as ->.
    destruct Hs as [(_ & Hrun & _)|Hs]; [|destruct Hs; congruence].
    apply shouldRun_true in Hrun as [_ Hdeps].
    unfold dependencies_succeeded in Hdeps. rewrite Forall_forall in Hdeps.
    destruct (Hdeps d Hd) as (y0 & Hy0 & Hs0). congruence.
  - pose proof (step_advances l s s' Hj Hstep) as Hadv.
    destruct (Forall2_lookup_l _ _ _ _ _ Hadv Hy)
      as (y' & Hy' & _ & _ & _ & _ & _ & Hdone).
    exists y'. split; [done|]. rewrite Hdone; [done|].
    unfold isDone. by rewrite Hfail.
Qed.

(** X20.  A step whose dependency has Failed is never run: once a
    resolved dependency of an Idle step is Failed, the step stays Idle
    and unchanged in every later state of the execution. *)
Theorem Run_never_runs_after_failed_dependency (w : Workflow)
  (ls ls' : list Label) (s s' : State) (i d : nat) (x y : Step) :
  exec ls (enter w) = Some s ->
  exec ls' s = Some s' ->
  steps s !! i = Some x -> status x = Idle ->
  d ∈ dependsOn x ->
  steps s !! d = Some y -> status y = Failed ->
  steps s' !! i = Some x.
Proof.
  intros Hexec. assert (joined s) as Hj.
  { eapply exec_joined; [apply enter_joined|exact Hexec]. }
  clear Hexec. revert s y Hj.
  induction ls' as [|l ls' IH]; intros s y Hj; simpl.
  - by intros [= <-].
  - destruct (step l s) as [s1|] eqn:E; [|done].
    intros Hexec Hi Hx Hd Hy Hfail.
    destruct (step_keeps_blocked l s s1 i x d y Hj E Hi Hx Hd Hy Hfail)
      as (Hi1 & y1 & Hy1 & Hfail1).
    apply (IH s1 y1); try done. by eapply step_joined.
Qed.

Lemma Run_never_runs_after_failed_dependency_witness :
  steps (final a_fails_quietly (loaded (with_concurrency 1) chain)) !! 1%nat =
    Some {| Name := "b"; Command := "make b"; DependsOn := ["a"];
            dependsOn := [0%nat]; status := Idle |}.
Proof.
  apply (Run_never_runs_after_failed_dependency
           (loaded (with_concurrency 1) chain)
           (dispatch ++ start 0 ++ complete 0 false nil)
           [run_main; run_main; run_main]
           (final (dispatch ++ start 0 ++ complete 0 false nil)
              (loaded (with_concurrency 1) chain))
           (final a_fails_quietly (loaded (with_concurrency 1) chain))
           1 0
           {| Name := "b"; Command := "make b"; DependsOn := ["a"];
              dependsOn := [0%nat]; status := Idle |}
           {| Name := "a"; Command := "make a"; DependsOn := [];
              dependsOn := []; status := Failed |}).
  - vm_compute. reflexivity.
  - vm_compute. reflexivity.
  - vm_compute. reflexivity.
  - reflexivity.
  - apply list_elem_of_here.
  - vm_compute. reflexivity.
  - reflexivity.
Defined.

Lemma Run_waits_on_normal_completion_witness :
  pc (final (both_succeed ++ [run_main])
        (loaded (with_concurrency 1) chain)) = Returned nil /\
  Forall (fun t => at_ t = TExit)
    (tasks (final (both_succeed ++ [run_main])
              (loaded (with_concurrency 1) chain))) /\
  allDone (steps (final (both_succeed ++ [run_main])
                    (loaded (with_concurrency 1) chain))) = true.
Proof.
  apply (Run_waits_on_normal_completion
           (loaded (with_concurrency 1) chain) both_succeed
           (final both_succeed (loaded (with_concurrency 1) chain))).
  - vm_compute. reflexivity.
  - vm_compute. reflexivity.
  - vm_compute. reflexivity.
Defined.

End SchedulerMore.

(* ================================================================== *)
(** * The sequential workflow *)
(* ================================================================== *)

Section SequentialFacts.
Import Go Sequential SequentialExamples.

Lemma NewSpinner_valid (id command : string) (o : Spinner.Options) :
  Spinner.Sink o <> None -> Spinner.NotificationManager_ o <> None ->
  Spinner.NewSpinner id command o = Spinner.Ok (spinner_of id command o).
Proof.
  intros Hs Hn. unfold Spinner.NewSpinner.
  destruct (Spinner.Sink o); [|done].
  destruct (Spinner.NotificationManager_ o); [|done].
  pose proof (Split_nonempty space command).
  destruct (decide (length (Split command space) < 1)%nat); [lia|done].
Qed.

(** One turn of the loop, with options that make [NewSpinner] return. *)
Lemma run_steps_cons o ids procs k step rest log :
  Spinner.Sink o <> None -> Spinner.NotificationManager_ o <> None ->
  run_steps o ids procs k (step :: rest) log =
    if not_nil (Spinner.returned (spinner_of (ids k) step o) (procs k))
    then (Done (Spinner.returned (spinner_of (ids k) step o) (procs k)),
          log ++ Spinner.events (spinner_of (ids k) step o) (procs k))
    else run_steps o ids procs (S k) rest
           (log ++ Spinner.events (spinner_of (ids k) step o) (procs k)).
Proof.
  intros Hs Hn. simpl. rewrite (NewSpinner_valid _ _ _ Hs Hn).
  unfold Spinner.bind. rewrite Run_extends_log.
  by destruct (not_nil _).
Qed.

Lemma run_steps_prefix o ids procs k pre rest log :
  Spinner.Sink o <> None -> Spinner.NotificationManager_ o <> None ->
  all_return_nil o ids procs k pre = true ->
  run_steps o ids procs k (pre ++ rest) log =
    run_steps o ids procs (k + length pre) rest
      (log ++ trace o ids procs k pre).
Proof.
  intros Hs Hn. revert k log. induction pre as [|c pre IH]; intros k log Hnil.
  - simpl. by rewrite Nat.add_0_r, app_nil_r.
  - simpl in Hnil. apply andb_true_iff in Hnil as [Hc Hpre].
    apply negb_true_iff in Hc.
    change ((c :: pre) ++ rest) with (c :: (pre ++ rest)).
    rewrite (run_steps_cons _ _ _ _ _ _ _ Hs Hn), Hc, (IH _ _ Hpre).
    simpl. rewrite <- app_assoc. f_equal. lia.
Qed.

(** X21.  The sequential [Run] ends at the first step whose spinner
    returns an error that is not nil, and returns that error: the events
    on the log are those of the steps before it and its own, in order,
    and no later step is requested. *)
Theorem Run_stops_at_first_error (w : Workflow) (o : WorkflowOptions)
  (ids : nat -> string) (procs : nat -> Spinner.Process)
  (pre post : list string) (step : string) (log : list Spinner.Event) :
  options w = Some o ->
  Sink o <> None -> NotificationManager_ o <> None ->
  Steps w = pre ++ step :: post ->
  all_return_nil (spinner_options o) ids procs 0 pre = true ->
  not_nil (Spinner.returned
             (spinner_of (ids (length pre)) step (spinner_options o))
             (procs (length pre))) = true ->
  Run w None ids procs log =
    (Done (Spinner.returned
             (spinner_of (ids (length pre)) step (spinner_options o))
             (procs (length pre))),
     log ++ trace (spinner_options o) ids procs 0 pre ++
     Spinner.events (spinner_of (ids (length pre)) step (spinner_options o))
       (procs (length pre))).
Proof.
  intros Ho Hs Hn Hsteps Hpre Herr. unfold Run. rewrite Ho, Hsteps.
  rewrite run_steps_prefix by done. simpl (0 + _)%nat.
  rewrite run_steps_cons by done. rewrite Herr. by rewrite <- app_assoc.
Qed.

Lemma Run_stops_at_first_error_witness :
  Run three_commands None uuids second_not_found [] =
    (Done (Spinner.returned
             (spinner_of (uuids (length ["make lint"])) "make test"
                (spinner_options both_set))
             (second_not_found (length ["make lint"]))),
     [] ++ trace (spinner_options both_set) uuids second_not_found 0
             ["make lint"] ++
     Spinner.events
       (spinner_of (uuids (length ["make lint"])) "make test"
          (spinner_options both_set))
       (second_not_found (length ["make lint"]))).
Proof.
  apply (Run_stops_at_first_error three_commands both_set uuids
           second_not_found ["make lint"] ["make install"] "make test").
  - reflexivity.
  - discriminate.
  - discriminate.
  - reflexivity.
  - reflexivity.
  - reflexivity.
Defined.

Lemma exits_in_time_nil (s : Spinner.Spinner) (p : Spinner.Process) :
  exits_in_time p -> Spinner.returned s p = nil.
Proof.
  intros (Hs & Hw & Hc).
  destruct (Run_table s p) as
    [(x & Hx & _)|[(_ & Hn & _)|[H|[H|[H|H]]]]].
  - congruence.
  - destruct Hn. destruct Hw as [Hw|[w Hw]]; [by left|right; eauto].
  - by destruct H as (_ & _ & _ & _ & ->).
  - destruct H as (_ & _ & Hc' & _). done.
  - by destruct H as (_ & _ & _ & _ & ->).
  - destruct H as (_ & _ & Hc' & _). done.
Qed.

Lemma all_return_nil_intro o ids procs k steps :
  (forall j, (j < length steps)%nat ->
     Spinner.returned
       (spinner_of (ids (k + j)) (nth j steps EmptyString) o)
       (procs (k + j)) = nil) ->
  all_return_nil o ids procs k steps = true.
Proof.
  revert k. induction steps as [|c steps IH]; intros k H; [done|]. simpl.
  apply andb_true_iff. split.
  - specialize (H 0%nat ltac:(simpl; lia)). simpl in H.
    rewrite Nat.add_0_r in H. by rewrite H.
  - apply IH. intros j Hj. specialize (H (S j) ltac:(simpl; lia)).
    simpl in H. by replace (S k + j)%nat with (k + S j)%nat by lia.
Qed.

(** X22.  The sequential [Run] does not look at exit codes: when every
    step is launched and exits within the timeout, with status 0 or
    not, [Run] goes through all the steps and returns nil, and the log
    holds the events of every step in order. *)
Theorem Run_ignores_exit_codes (w : Workflow) (o : WorkflowOptions)
  (ids : nat -> string) (procs : nat -> Spinner.Process)
  (log : list Spinner.Event) :
  options w = Some o ->
  Sink o <> None -> NotificationManager_ o <> None ->
  (forall j, (j < length (Steps w))%nat -> exits_in_time (procs j)) ->
  Run w None ids procs log =
    (Done nil, log ++ trace (spinner_options o) ids procs 0 (Steps w)).
Proof.
  intros Ho Hs Hn Hexit. unfold Run. rewrite Ho.
  rewrite <- (app_nil_r (Steps w)) at 1.
  rewrite run_steps_prefix; [done|done|done|].
  apply all_return_nil_intro. intros j Hj. simpl.
  apply exits_in_time_nil. by apply Hexit.
Qed.

Lemma Run_ignores_exit_codes_witness :
  Run three_commands None uuids second_exits_one [] =
    (Done nil,
     [] ++ trace (spinner_options both_set) uuids second_exits_one 0
             (Steps three_commands)).
Proof.
  apply (Run_ignores_exit_codes three_commands both_set uuids
           second_exits_one).
  - reflexivity.
  - discriminate.
  - discriminate.
  - intros j Hj. unfold exits_in_time.
    destruct j as [|[|j]]; simpl;
      (split; [reflexivity|]); (split; [|discriminate]).
    + left. reflexivity.
    + right. exists 256%Z. reflexivity.
    + left. reflexivity.
Defined.

Lemma run_steps_result o ids procs k steps log :
  Spinner.Sink o <> None -> Spinner.NotificationManager_ o <> None ->
  exists e, fst (run_steps o ids procs k steps log) = Done e /\
    (e = nil \/
     exists j step, steps !! j = Some step /\ not_nil e = true /\
       e = Spinner.returned (spinner_of (ids (k + j)) step o)
             (procs (k + j))).
Proof.
  intros Hs Hn. revert k log.
  induction steps as [|c steps IH]; intros k log.
  - exists nil. split; [done|by left].
  - rewrite run_steps_cons by done.
    destruct (not_nil (Spinner.returned (spinner_of (ids k) c o) (procs k)))
      eqn:E.
    + eexists. split; [done|]. right. exists 0%nat, c.
      rewrite Nat.add_0_r. done.
    + destruct (IH (S k) (log ++
                  Spinner.events (spinner_of (ids k) c o) (procs k)))
        as (e & He & Hor).
      exists e. split; [done|]. destruct Hor as [->|(j & step & Hj & Hnn & ->)];
        [by left|right].
      exists (S j), step. replace (k + S j)%nat with (S k + j)%nat by lia.
      done.
Qed.

(** X23.  [Run] on a workflow that [LoadWorkflowFromBytes] returned
    never panics and never fails in [NewSpinner]: when the notification
    manager starts, [Run] returns nil or the non-nil error that the
    spinner of one of its steps returned; when it does not start, the
    process exits with code 1 and no event is emitted. *)
Theorem Run_of_loaded_workflow (parsed : errval + Workflow)
  (o : option WorkflowOptions) (w : Workflow) (start : option errval)
  (ids : nat -> string) (procs : nat -> Spinner.Process)
  (log : list Spinner.Event) :
  LoadWorkflowFromBytes parsed o = Loaded w ->
  match start with
  | Some _ => Run w start ids procs log = (Exit 1, log)
  | None =>
      exists e wo, options w = Some wo /\
        fst (Run w start ids procs log) = Done e /\
        (e = nil \/
         exists j step, Steps w !! j = Some step /\ not_nil e = true /\
           e = Spinner.returned
                 (spinner_of (ids j) step (spinner_options wo)) (procs j))
  end.
Proof.
  unfold LoadWorkflowFromBytes. destruct parsed as [err|pw]; [done|].
  destruct o as [wo|]; [|done].
  destruct (Sink wo) eqn:Hs; [|done].
  destruct (NotificationManager_ wo) eqn:Hn; [|done].
  intros [= <-]. unfold Run. simpl. destruct start as [e|]; [done|].
  destruct (run_steps_result (spinner_options wo) ids procs 0 (Steps pw) log)
    as (e & He & Hor).
  - simpl. by rewrite Hs.
  - simpl. by rewrite Hn.
  - exists e, wo. done.
Qed.

Lemma Run_of_loaded_workflow_witness :
  exists e wo, options three_commands = Some wo /\
    fst (Run three_commands None uuids second_not_found []) = Done e /\
    (e = nil \/
     exists j step, Steps three_commands !! j = Some step /\
       not_nil e = true /\
       e = Spinner.returned
             (spinner_of (uuids j) step (spinner_options wo))
             (second_not_found j)).
Proof.
  apply (Run_of_loaded_workflow (inr parsed_three) (Some both_set)
           three_commands None uuids second_not_found []).
  reflexivity.
Defined.


End SequentialFacts.

(* ================================================================== *)
(** * The scheduler: units given back, steps left behind *)
(* ================================================================== *)

Section SchedulerLeftovers.
Import Go Workflow WorkflowExamples.

(** X25.  The semaphore holds exactly one unit for each goroutine that
    has not yet released its own, plus one while the loop is between
    [Acquire] and the [go] statement: so once every goroutine has
    released, every unit is back, also after a failed [Acquire], which
    takes none. *)
Theorem Run_releases_every_unit (opts : WorkflowOptions)
  (parsed : errval + Document) (w : Workflow) (ls : list Label) (s : State) :
  (0 <= Concurrency opts)%Z ->
  LoadWorkflowFromBytes (Some opts) parsed = Loaded w ->
  exec ls (enter w) = Some s ->
  cur (gate s) = held s /\
  (Forall (fun t => holding t = false) (tasks s) ->
   (forall i, pc s <> AtGo i) -> cur (gate s) = 0%Z).
Proof.
  intros Hn Hload Hexec.
  destruct (Loaded_fresh _ _ _ Hload) as (o & [= <-] & Hg & _ & Hidle).
  assert (bounded (Concurrency opts) s) as (_ & Hcur & _).
  { eapply (exec_invariant (bounded (Concurrency opts))); [|..|exact Hexec].
    - intros l s1 s2. apply step_bounded.
    - replace (Concurrency opts) with (size (gatekeeper w))
        by by rewrite Hg.
      apply enter_bounded; [|by rewrite Hg|done]. by rewrite Hg. }
  split; [done|]. intros Hnone Hpc. rewrite Hcur. unfold held.
  assert (filter holding (tasks s) = []) as ->.
  { induction (tasks s) as [|t ts IH]; [done|].
    apply Forall_cons in Hnone as [Ht Hts].
    rewrite filter_cons. destruct (decide (holding t)) as [Hh|_];
      [by rewrite Ht in Hh|by apply IH]. }
  destruct (pc s) as [| | |k|k| |r] eqn:E; try done. by destruct (Hpc k).
Qed.

Lemma Run_releases_every_unit_witness :
  cur (gate (final (both_succeed ++ [run_main])
               (loaded (with_concurrency 1) chain))) =
    held (final (both_succeed ++ [run_main])
            (loaded (with_concurrency 1) chain)) /\
  (Forall (fun t => holding t = false)
     (tasks (final (both_succeed ++ [run_main])
               (loaded (with_concurrency 1) chain))) ->
   (forall i, pc (final (both_succeed ++ [run_main])
                    (loaded (with_concurrency 1) chain)) <> AtGo i) ->
   cur (gate (final (both_succeed ++ [run_main])
                (loaded (with_concurrency 1) chain))) = 0%Z).
Proof.
  apply (Run_releases_every_unit (with_concurrency 1) (inr chain)
           (loaded (with_concurrency 1) chain) (both_succeed ++ [run_main])).
  - vm_compute. discriminate.
  - vm_compute. reflexivity.
  - vm_compute. reflexivity.
Defined.

(** The step claimed for an [Acquire] that failed: Pending, and no
    goroutine has it. *)
Lemma step_abandoned l s s' r idx :
  pc s = Returned r -> step l s = Some s' ->
  (exists x, steps s !! idx = Some x /\ status x = Pending) ->
  (forall j t, tasks s !! j = Some t -> toRun t <> idx) ->
  pc s' = Returned r /\
  (exists x, steps s' !! idx = Some x /\ status x = Pending) /\
  (forall j t, tasks s' !! j = Some t -> toRun t <> idx).
Proof.
  destruct s as [st sp g jn cx p ts]. simpl. intros -> Hstep Hx Hno.
  destruct l as [| |j|j ok err|e]; simpl in Hstep; try done.
  - unfold task_step, set_task, Run_begins in Hstep. simpl in Hstep.
    destruct (ts !! j) as [t|] eqn:Hj; [|done].
    pose proof (Hno j t Hj) as Hne.
    assert (forall q j' t', <[j := move t q]> ts !! j' = Some t' ->
              toRun t' <> idx) as Hno'.
    { intros q j' t' Hj'.
      destruct (lookup_move _ _ _ _ _ _ Hj Hj') as [[-> ->]|[_ Hl]];
        [done|by apply (Hno j')]. }
    destruct (at_ t); try destruct (not_nil err); simplify_eq/=;
      (split; [done|]); (split; [|by apply Hno']); try done.
    destruct Hx as (x & Hx & Hs). exists x.
    by rewrite list_lookup_alter_ne.
  - unfold task_exit, set_task, Run_ends in Hstep. simpl in Hstep.
    destruct (ts !! j) as [t|] eqn:Hj; [|done].
    pose proof (Hno j t Hj) as Hne.
    destruct (at_ t); simplify_eq/=. split; [done|]. split.
    + destruct Hx as (x & Hx & Hs). exists x.
      by rewrite list_lookup_alter_ne.
    + intros j' t' Hj'.
      destruct (lookup_move _ _ _ _ _ _ Hj Hj') as [[-> ->]|[_ Hl]];
        [done|by apply (Hno j')].
  - unfold cancel in Hstep. simpl in Hstep.
    destruct cx; simplify_eq/=. done.
Qed.

(** X26.  When [Acquire] fails, the step the loop had claimed for it is
    left behind: [Run] returns the error, and in every later state that
    step is still Pending and no goroutine runs it. *)
Theorem Run_abandons_claimed_step (w : Workflow) (ls ls' : list Label)
  (s s' : State) (idx : nat) :
  exec ls (enter w) = Some s ->
  pc s = AtAcquire idx ->
  exec (run_acquire_fails :: ls') s = Some s' ->
  (exists e, ctx s = Some e /\ pc s' = Returned (Err e)) /\
  (exists x, steps s' !! idx = Some x /\ status x = Pending) /\
  (forall j t, tasks s' !! j = Some t -> toRun t <> idx).
Proof.
  intros Hexec Hpc.
  assert (joined s) as (_ & _ & Hm).
  { eapply exec_joined; [apply enter_joined|exact Hexec]. }
  rewrite Hpc in Hm. simpl in Hm. destruct Hm as [Hx Hno].
  simpl. unfold acquire_fails. rewrite Hpc.
  destruct (ctx s) as [e|] eqn:Hc; [|done].
  intros Hrest.
  assert (forall s0 r, pc s0 = Returned r ->
            (exists x, steps s0 !! idx = Some x /\ status x = Pending) ->
            (forall j t, tasks s0 !! j = Some t -> toRun t <> idx) ->
            exec ls' s0 = Some s' ->
            pc s' = Returned r /\
            (exists x, steps s' !! idx = Some x /\ status x = Pending) /\
            (forall j t, tasks s' !! j = Some t -> toRun t <> idx)) as Hind.
  { clear. induction ls' as [|l ls' IH]; intros s0 r Hp Hx Hno; simpl.
    - by intros [= <-].
    - destruct (step l s0) as [s1|] eqn:E; [|done].
      destruct (step_abandoned l s0 s1 r idx Hp E Hx Hno) as (Hp1 & Hx1 & Hno1).
      by apply IH. }
  destruct (Hind (set_pc (Returned (Err e)) s) (Err e)) as (Hp' & Hx' & Hno');
    try done.
  split; [by exists e|]. done.
Qed.

Lemma Run_abandons_claimed_step_witness :
  (exists e,
     ctx (final (dispatch ++ start 0 ++ [run_main; run_main; run_main] ++
                 [run_cancel Canceled])
            (loaded (with_concurrency 1) (independent ["a"; "b"]))) = Some e /\
     pc (final cancel_while_running
           (loaded (with_concurrency 1) (independent ["a"; "b"]))) =
       Returned (Err e)) /\
  (exists x,
     steps (final cancel_while_running
              (loaded (with_concurrency 1) (independent ["a"; "b"])))
       !! 1%nat = Some x /\ status x = Pending) /\
  (forall j t,
     tasks (final cancel_while_running
              (loaded (with_concurrency 1) (independent ["a"; "b"])))
       !! j = Some t -> toRun t <> 1%nat).
Proof.
  apply (Run_abandons_claimed_step
           (loaded (with_concurrency 1) (independent ["a"; "b"]))
           (dispatch ++ start 0 ++ [run_main; run_main; run_main] ++
            [run_cancel Canceled])
           []).
  - vm_compute. reflexivity.
  - vm_compute. reflexivity.
  - vm_compute. reflexivity.
Defined.

End SchedulerLeftovers.
